(** * easylog: an asynchronous, rotating, size-capped log sink

    A shallow embedding of [easylog.go] (package [easylog]) and the
    verification of its specification.

    The embedding follows the source function by function.  Go's [int] and
    [int64] are 64-bit two's complement integers (the [int] of amd64 and
    arm64), carried as [Z] with the wrap-around written out.  Byte slices and
    [bytes.Buffer] contents are [list byte]; file names are [string]s.  The
    file system is the content of the directory [SaveDir], a finite map from
    entry names to file contents: every path the program builds is
    [filepath.Join(t.SaveDir, name)] for an entry name [name].  What the
    operating system decides (whether an open, stat, write or rename fails,
    what time it is, which pooled buffer [sync.Pool] hands out, when the
    ticker fires) is an explicit input of the operation that depends on it. *)

From Stdlib Require Import ZArith Lia ZifyNat List String Ascii Bool.
From stdpp Require Import base option list sorting gmap strings.
Import ListNotations.

Local Open Scope Z_scope.

Abbreviation byte := Byte.byte.

(** ** Machine integers *)

Definition wrap64 (z : Z) : Z := (z + 2 ^ 63) mod 2 ^ 64 - 2 ^ 63.
Definition add64 (a b : Z) : Z := wrap64 (a + b).
Definition sub64 (a b : Z) : Z := wrap64 (a - b).
Definition max_int64 : Z := 2 ^ 63 - 1.

(** [len(x)] as an [int]. *)
Definition len {A} (l : list A) : Z := Z.of_nat (length l).

(** ** The sink's configuration: the exported fields of [EasyLog] *)

Record EasyLog := mkEasyLog {
  SaveDir : string;
  FileName : string;
  MaxFileSize : Z;
  MaxFileCount : Z;
  FlushFreq : Z;          (* time.Duration, nanoseconds *)
  PipeCap : Z             (* capacity of the channel Pipe *)
}.

Definition Millisecond : Z := 1000000.

(** [NewLog]: the two clamps and the defaults (the goroutines it starts are
    the pump and the sweeper of the system below). *)
Definition NewLog (buflen : Z) (flushFreq : Z) : EasyLog :=
  let buflen := if buflen <? 10 then 10 else buflen in
  let flushFreq :=
    if flushFreq <? Millisecond * 10 then Millisecond * 10 else flushFreq in
  {| SaveDir := ""; FileName := "log.txt";
     MaxFileSize := 1024 * 1024 * 4; MaxFileCount := 0;
     FlushFreq := flushFreq; PipeCap := buflen |}.

(** [SetDir]: [mkdir_err] is the outcome of [os.MkdirAll]. *)
Definition SetDir (szDir fileName : string) (mkdir_err : bool) (t : EasyLog)
  : EasyLog * bool :=
  if mkdir_err then (t, true)
  else ({| SaveDir := szDir; FileName := fileName;
           MaxFileSize := MaxFileSize t; MaxFileCount := MaxFileCount t;
           FlushFreq := FlushFreq t; PipeCap := PipeCap t |}, false).

Definition SetMaxFileSize (m : Z) (t : EasyLog) : EasyLog :=
  let m := if m <? 1024 * 1024 then 1024 * 1024 else m in
  {| SaveDir := SaveDir t; FileName := FileName t;
     MaxFileSize := m; MaxFileCount := MaxFileCount t;
     FlushFreq := FlushFreq t; PipeCap := PipeCap t |}.

Definition SetMaxFileCount (m : Z) (t : EasyLog) : EasyLog :=
  let m := if m <? 0 then 0 else m in
  {| SaveDir := SaveDir t; FileName := FileName t;
     MaxFileSize := MaxFileSize t; MaxFileCount := m;
     FlushFreq := FlushFreq t; PipeCap := PipeCap t |}.

(** ** Strings: Go's [<] on strings is the byte-wise lexicographic order;
    [str_le a b] is [!(b < a)] *)

Definition str_le (a b : string) : Prop := String.leb a b = true.

Global Instance str_le_dec a b : Decision (str_le a b).
Proof. unfold str_le. apply _. Defined.

(** ** The regular expression of the sweep

    [cleanFile] compiles [fmt.Sprintf(`%s\.\d{14}`, t.FileName)]: the file
    name is pasted into the pattern as it is, so it is read as a pattern
    itself, and the expression is used with [MatchString], which looks for a
    match anywhere in the subject.  The embedding covers the patterns a plain
    file name gives: a sequence of one-character atoms.  A file name holding
    one of the other metacharacters of the syntax, or a byte outside ASCII,
    is outside the fragment ([None]). *)

Inductive atom :=
| Lit (c : ascii)      (* a literal character *)
| AnyChar              (* [.]: any character but a newline *)
| Digit.               (* [\d]: an ASCII digit *)

Definition is_ascii7 (c : ascii) : bool := (nat_of_ascii c <? 128)%nat.

Definition is_meta (c : ascii) : bool :=
  existsb (Ascii.eqb c) (list_ascii_of_string "\+*?()|[]{}^$").

Definition is_digit (c : ascii) : bool :=
  ((48 <=? nat_of_ascii c) && (nat_of_ascii c <=? 57))%nat.

Definition newline : ascii := ascii_of_nat 10.

Fixpoint compile_name (s : string) : option (list atom) :=
  match s with
  | EmptyString => Some []
  | String c s' =>
      if negb (is_ascii7 c) || is_meta c then None
      else
        match compile_name s' with
        | None => None
        | Some r => Some ((if Ascii.eqb c "." then AnyChar else Lit c) :: r)
        end
  end.

(** [regexp.Compile(fmt.Sprintf(`%s\.\d{14}`, name))]. *)
Definition compile_expr (name : string) : option (list atom) :=
  match compile_name name with
  | None => None
  | Some r => Some (r ++ Lit "." :: repeat Digit 14)
  end.

Definition atom_matches (a : atom) (c : ascii) : bool :=
  match a with
  | Lit d => Ascii.eqb c d
  | AnyChar => negb (Ascii.eqb c newline)
  | Digit => is_digit c
  end.

(** The expression matches a prefix of the subject. *)
Fixpoint match_here (r : list atom) (s : string) : bool :=
  match r with
  | [] => true
  | a :: r' =>
      match s with
      | EmptyString => false
      | String c s' => atom_matches a c && match_here r' s'
      end
  end.

(** The expression matches at some position of the subject. *)
Fixpoint match_anywhere (r : list atom) (s : string) : bool :=
  match_here r s ||
  match s with
  | EmptyString => false
  | String _ s' => match_anywhere r s'
  end.

Definition all_ascii7 (s : string) : bool :=
  forallb is_ascii7 (list_ascii_of_string s).

(** [re.MatchString(s)], on ASCII subjects. *)
Definition MatchString (r : list atom) (s : string) : option bool :=
  if all_ascii7 s then Some (match_anywhere r s) else None.

(** What the specification calls a rotated file name: the base name, a dot
    and exactly 14 digits.  This is also the shape of the names [_rename]
    produces. *)
Definition all_digits (s : string) : bool :=
  forallb is_digit (list_ascii_of_string s).

Definition is_rotated_name (base name : string) : bool :=
  match String.length name - String.length base with
  | 15%nat =>
      String.eqb (substring 0 (String.length base) name) base
      && String.eqb (substring (String.length base) 1 name) "."
      && all_digits (substring (S (String.length base)) 14 name)
  | _ => false
  end%nat.

(** ** The retention sweep: [cleanFile] of [_initFileRemove] *)

(** What [filepath.Walk] hands to its callback: an [os.FileInfo], or [nil]
    when the entry could not be read. *)
Record FileInfo := mkFileInfo { fi_Name : string; fi_IsDir : bool }.

(** The callback of [filepath.Walk], folded over the visited entries:
    [flist] grows by the names the expression matches.  [None]: a name
    outside the ASCII fragment of [MatchString]. *)
Fixpoint walk_collect (r : list atom) (visited : list (option FileInfo))
    (flist : list string) : option (list string) :=
  match visited with
  | [] => Some flist
  | None :: rest => walk_collect r rest flist
  | Some fi :: rest =>
      if fi_IsDir fi then walk_collect r rest flist
      else
        match MatchString r (fi_Name fi) with
        | None => None
        | Some true => walk_collect r rest (flist ++ [fi_Name fi])
        | Some false => walk_collect r rest flist
        end
  end.

(** [sort.Slice(flist, func(i, j) bool { return flist[i] < flist[j] })].
    A list of strings has one sorted arrangement, so the sorting algorithm
    does not show in the result (see [sort_Slice_unique]). *)
Definition sort_Slice (flist : list string) : list string :=
  merge_sort str_le flist.

(** The deletion loop [for i := 0; i < bound; i++ { os.Remove(flist[i]) }],
    started at index [i] with [steps] iterations to go.  The result is the
    names handed to [os.Remove], in order, and whether an index ran out of
    range (a panic, which [cleanFile] recovers from). *)
Fixpoint remove_loop (flist : list string) (i : nat) (steps : nat)
  : list string * bool :=
  match steps with
  | O => ([], false)
  | S k =>
      match flist !! i with
      | None => ([], true)
      | Some name =>
          let '(removed, panicked) := remove_loop flist (S i) k in
          (name :: removed, panicked)
      end
  end.

(** Lines 128 to 142: from the collected [flist] to the names removed. *)
Definition cleanFile_remove (t : EasyLog) (flist : list string)
  : list string * bool :=
  if MaxFileCount t <=? 0 then ([], false)
  else if add64 (len flist) 1 <=? MaxFileCount t then ([], false)
  else
    let sorted := sort_Slice flist in
    let bound := sub64 (add64 (len sorted) 1) (MaxFileCount t) in
    remove_loop sorted 0 (Z.to_nat bound).

(** [cleanFile]: the names it removes from [SaveDir].  [None] when the file
    name or a visited name is outside the modelled fragment of the regular
    expression syntax. *)
Definition cleanFile (t : EasyLog) (visited : list (option FileInfo))
  : option (list string) :=
  match compile_expr (FileName t) with
  | None => None
  | Some r =>
      match walk_collect r visited [] with
      | None => None
      | Some flist => Some (fst (cleanFile_remove t flist))
      end
  end.

(** The files a sweep leaves of those it listed. *)
Definition kept_after (t : EasyLog) (flist : list string) : list string :=
  drop (length (fst (cleanFile_remove t flist))) (sort_Slice flist).

(** ** The trigger of the sweeper: the channel [ch] and [nofityDelFile] *)

(** A buffered channel of capacity [cap]: the queued values, oldest first. *)
Definition chan_send {A} (cap : nat) (v : A) (ch : list A) : option (list A) :=
  if (length ch <? cap)%nat then Some (ch ++ [v]) else None.   (* None: blocks *)

Definition chan_recv {A} (ch : list A) : option (A * list A) :=
  match ch with
  | [] => None                                                 (* blocks *)
  | v :: rest => Some (v, rest)
  end.

Definition ch_cap : nat := 1.

(** [if len(ch) == 0 { ch <- 1 }], run without interruption. [None] would
    be a send that blocks. *)
Definition nofityDelFile (ch : list Z) : option (list Z) :=
  if len ch =? 0 then chan_send ch_cap 1 ch else Some ch.

(** The same closure against a sweeper that runs concurrently.  The pump is
    the only goroutine that calls [nofityDelFile]; between its test of
    [len(ch)] and its send the sweeper may receive. *)
Inductive notifier_pc :=
| NIdle            (* not inside nofityDelFile *)
| NSend.           (* len(ch) == 0 was seen, about to send *)

Inductive sweeper_pc :=
| SWait            (* blocked in <-ch *)
| SClean.          (* inside cleanFile *)

Record Trigger := mkTrigger {
  tr_ch : list Z;
  tr_notifier : notifier_pc;
  tr_sweeper : sweeper_pc;
  tr_passes : nat            (* sweep passes started so far *)
}.

Inductive trigger_step :=
| TNotifyTest      (* nofityDelFile is called and evaluates len(ch) == 0 *)
| TNotifySend      (* ch <- 1 *)
| TSweeperRecv     (* <-ch returns, cleanFile starts *)
| TSweeperDone.    (* cleanFile returns *)

Definition trigger_next (s : Trigger) (e : trigger_step) : option Trigger :=
  match e, tr_notifier s, tr_sweeper s with
  | TNotifyTest, NIdle, _ =>
      Some {| tr_ch := tr_ch s;
              tr_notifier := if len (tr_ch s) =? 0 then NSend else NIdle;
              tr_sweeper := tr_sweeper s; tr_passes := tr_passes s |}
  | TNotifySend, NSend, _ =>
      match chan_send ch_cap 1 (tr_ch s) with
      | None => None
      | Some ch' =>
          Some {| tr_ch := ch'; tr_notifier := NIdle;
                  tr_sweeper := tr_sweeper s; tr_passes := tr_passes s |}
      end
  | TSweeperRecv, _, SWait =>
      match chan_recv (tr_ch s) with
      | None => None
      | Some (_, ch') =>
          Some {| tr_ch := ch'; tr_notifier := tr_notifier s;
                  tr_sweeper := SClean; tr_passes := S (tr_passes s) |}
      end
  | TSweeperDone, _, SClean =>
      Some {| tr_ch := tr_ch s; tr_notifier := tr_notifier s;
              tr_sweeper := SWait; tr_passes := tr_passes s |}
  | _, _, _ => None
  end.

Fixpoint trigger_run (s : Trigger) (es : list trigger_step) : option Trigger :=
  match es with
  | [] => Some s
  | e :: es' =>
      match trigger_next s e with
      | None => None
      | Some s' => trigger_run s' es'
      end
  end.

(** The state [_initFileRemove] leaves: an empty channel, the sweeper
    blocked on it. *)
Definition trigger_init : Trigger :=
  {| tr_ch := []; tr_notifier := NIdle; tr_sweeper := SWait; tr_passes := 0 |}.

(** [n] calls of [nofityDelFile] in a row.  A call whose test fails has no
    send step. *)
Fixpoint notify_calls (s : Trigger) (n : nat) : option Trigger :=
  match n with
  | O => Some s
  | S k =>
      match trigger_next s TNotifyTest with
      | None => None
      | Some s1 =>
          match tr_notifier s1 with
          | NIdle => notify_calls s1 k
          | NSend =>
              match trigger_next s1 TNotifySend with
              | None => None
              | Some s2 => notify_calls s2 k
              end
          end
      end
  end.

(** What holds of the trigger in every state: at most one signal is queued,
    and none while the notifier stands between its test and its send. *)
Definition trigger_inv (s : Trigger) : Prop :=
  (length (tr_ch s) <= 1)%nat /\ (tr_notifier s = NSend -> tr_ch s = []).

(** ** The world the File Writer acts on *)

(** The system calls that reach the directory, in the order they are made.
    The record is what the properties of the writer are stated on: the
    bytes written, the sizes [Stat] reported, the renames. *)
Inductive syscall :=
| SysOpen (name : string) (ok : bool)
| SysStat (name : string) (size : Z)
| SysWrite (name : string) (bytes : list byte)
| SysRename (old new : string) (ok : bool)
| SysRemove (name : string)
| SysNotify.

Record World := mkWorld {
  dir : gmap string (list byte);   (* the regular files of SaveDir *)
  ch : list Z;                     (* the sweeper's trigger channel *)
  calls : list syscall             (* every call so far, oldest first *)
}.

Definition log_call (c : syscall) (w : World) : World :=
  {| dir := dir w; ch := ch w; calls := calls w ++ [c] |}.

Definition set_dir (d : gmap string (list byte)) (w : World) : World :=
  {| dir := d; ch := ch w; calls := calls w |}.

(** [time.Now()], as far as [Format("20060102150405")] reads it. *)
Record Time := mkTime {
  year : nat; month : nat; day : nat; hour : nat; minute : nat; second : nat
}.

Definition digit_char (n : nat) : ascii := ascii_of_nat (48 + n mod 10).

Definition fmt2 (n : nat) : string :=
  String (digit_char (n / 10)) (String (digit_char n) EmptyString).

Definition fmt4 (n : nat) : string :=
  String (digit_char (n / 1000)) (String (digit_char (n / 100))
    (String (digit_char (n / 10)) (String (digit_char n) EmptyString))).

(** [t.Format("20060102150405")] for a year of four digits. *)
Definition Format (now : Time) : string :=
  (fmt4 (year now) ++ fmt2 (month now) ++ fmt2 (day now)
   ++ fmt2 (hour now) ++ fmt2 (minute now) ++ fmt2 (second now))%string.

(** What the operating system decides during one call of [_writeFile]. *)
Record IO := mkIO {
  open_try_err : bool;             (* os.OpenFile of _tryWrite fails *)
  stat_err : bool;                 (* f.Stat fails: info is nil *)
  copy_try_short : option nat;     (* io.Copy of _tryWrite stops after k bytes *)
  rename_err1 : bool;              (* the first os.Rename fails *)
  rename_err2 : bool;              (* the second os.Rename fails *)
  open_must_err : bool;            (* os.OpenFile of _mustWrite fails *)
  copy_must_short : option nat;    (* io.Copy of _mustWrite stops after k bytes *)
  now : Time                       (* time.Now() in _rename *)
}.

(** A call either returns or panics; the world is threaded through both. *)
Inductive outcome (A : Type) :=
| Returns (a : A) (w : World)
| Panics (w : World).
Arguments Returns {A} a w.
Arguments Panics {A} w.

Definition world_of {A} (o : outcome A) : World :=
  match o with Returns _ w => w | Panics w => w end.

(** [os.OpenFile(path, O_CREATE|O_WRONLY|O_APPEND, ...)]: creates the file
    when it is absent. [false]: the open failed. *)
Definition OpenFile (name : string) (err : bool) (w : World) : bool * World :=
  if err then (false, log_call (SysOpen name false) w)
  else
    let d := match dir w !! name with
             | Some _ => dir w
             | None => <[name := []]> (dir w)
             end in
    (true, log_call (SysOpen name true) (set_dir d w)).

Definition file_size (name : string) (w : World) : Z :=
  match dir w !! name with
  | Some c => len c
  | None => 0
  end.

(** [io.Copy(f, data)] on a file opened with O_APPEND: [data.WriteTo(f)]
    appends the bytes at the end of the file and drains the buffer; a short
    write leaves the rest in the buffer.  Returns the buffer afterwards. *)
Definition Copy (name : string) (short : option nat) (data : list byte)
    (w : World) : list byte * World :=
  let written := match short with
                 | None => data
                 | Some k => take k data
                 end in
  let rest := match short with
              | None => []
              | Some k => drop k data
              end in
  let old := default [] (dir w !! name) in
  (rest, log_call (SysWrite name written)
           (set_dir (<[name := old ++ written]> (dir w)) w)).

(** [os.Rename(old, new)]: fails when the system says so or [old] is
    absent; replaces [new] when it exists. *)
Definition Rename (old new : string) (err : bool) (w : World) : bool * World :=
  match dir w !! old with
  | Some c =>
      if err then (false, log_call (SysRename old new false) w)
      else (true, log_call (SysRename old new true)
                    (set_dir (<[new := c]> (delete old (dir w))) w))
  | None => (false, log_call (SysRename old new false) w)
  end.

(** [os.Remove(path)]; its error is ignored. *)
Definition Remove (name : string) (w : World) : World :=
  log_call (SysRemove name) (set_dir (delete name (dir w)) w).

(** ** The File Writer *)

Definition rotated_name (t : EasyLog) (now : Time) : string :=
  (FileName t ++ "." ++ Format now)%string.

(** [_rename]: at most two attempts (the second after a second's sleep). *)
Definition _rename (t : EasyLog) (io : IO) (w : World) : World :=
  let newname := rotated_name t (now io) in
  let '(ok, w1) := Rename (FileName t) newname (rename_err1 io) w in
  if ok then w1
  else snd (Rename (FileName t) newname (rename_err2 io) w1).

(** [_tryWrite]: the result and the buffer afterwards. *)
Definition _tryWrite (t : EasyLog) (io : IO) (data : list byte) (w : World)
  : outcome (bool * list byte) :=
  let '(ok, w1) := OpenFile (FileName t) (open_try_err io) w in
  if negb ok then Returns (true, data) w1
  else if stat_err io then Panics w1          (* info.Size() on a nil info *)
  else
    let fsize := file_size (FileName t) w1 in
    let w2 := log_call (SysStat (FileName t) fsize) w1 in
    if add64 fsize (len data) >? MaxFileSize t then Returns (false, data) w2
    else
      let '(rest, w3) := Copy (FileName t) (copy_try_short io) data w2 in
      Returns (true, rest) w3.

(** [_mustWrite]: the buffer afterwards. *)
Definition _mustWrite (t : EasyLog) (io : IO) (data : list byte) (w : World)
  : list byte * World :=
  let '(ok, w1) := OpenFile (FileName t) (open_must_err io) w in
  if negb ok then (data, w1)
  else Copy (FileName t) (copy_must_short io) data w1.

(** The closure [t.nofityDelFile] on the world's channel.  The pump is its
    only caller, so the send after a successful test cannot block. *)
Definition notify (w : World) : World :=
  let w1 := log_call SysNotify w in
  match nofityDelFile (ch w1) with
  | Some c => {| dir := dir w1; ch := c; calls := calls w1 |}
  | None => w1
  end.

(** [_writeFile]: the buffer afterwards. *)
Definition _writeFile (t : EasyLog) (io : IO) (data : list byte) (w : World)
  : outcome (list byte) :=
  match _tryWrite t io data w with
  | Panics w1 => Panics w1
  | Returns (true, rest) w1 => Returns rest w1
  | Returns (false, rest) w1 =>
      let w2 := _rename t io w1 in
      let '(rest', w3) := _mustWrite t io rest w2 in
      Returns rest' (notify w3)
  end.

(** The bytes written to the file [name], in order, over a record of
    calls. *)
Fixpoint appended (name : string) (cs : list syscall) : list byte :=
  match cs with
  | [] => []
  | SysWrite n b :: rest =>
      if String.eqb n name then b ++ appended name rest
      else appended name rest
  | _ :: rest => appended name rest
  end.

(** The sizes [Stat] reported for the file [name]: what each append saw
    before its size check. *)
Fixpoint observed_sizes (name : string) (cs : list syscall) : list Z :=
  match cs with
  | [] => []
  | SysStat n z :: rest =>
      if String.eqb n name then z :: observed_sizes name rest
      else observed_sizes name rest
  | _ :: rest => observed_sizes name rest
  end.

(** No operation of the call fails. *)
Definition io_ok (io : IO) : Prop :=
  open_try_err io = false /\ stat_err io = false /\ copy_try_short io = None
  /\ rename_err1 io = false /\ open_must_err io = false
  /\ copy_must_short io = None.

Definition no_faults (now : Time) : IO :=
  {| open_try_err := false; stat_err := false; copy_try_short := None;
     rename_err1 := false; rename_err2 := false; open_must_err := false;
     copy_must_short := None; now := now |}.

(** ** The Flush Pump: [_serveLog] *)

Definition CalcMaxCacheSize (t : EasyLog) : Z :=
  let nMax := MaxFileSize t in
  if nMax >? 1024 * 1024 * 1 then 1024 * 1024 * 1 else nMax.

(** Where the pump goroutine is blocked between two of its steps. *)
Inductive pump_pc :=
| AtSelect         (* in the select of line 238 *)
| AtWaitTick.      (* in the receive [<-tm.C] of line 254 *)

Record Pump := mkPump {
  data : list byte;          (* the accumulation buffer *)
  maxCacheSize : Z;
  pc : pump_pc
}.

(** The entry of the closure [do]: also the state after a recovered panic,
    since the supervisor loop calls [do] again. *)
Definition pump_start (t : EasyLog) : Pump :=
  {| data := []; maxCacheSize := CalcMaxCacheSize t; pc := AtSelect |}.

(** Line 253: after the select, the test of the buffer against the cache
    size decides where the pump blocks next. *)
Definition after_select (d : list byte) (m : Z) : Pump :=
  {| data := d; maxCacheSize := m;
     pc := if len d >? m then AtWaitTick else AtSelect |}.

(** ** The whole sink *)

Inductive error := mkError (msg : string).

(** [bytes.Buffer.Write]: appends, returns the length and a nil error. *)
Definition Buffer_Write (b p : list byte) : list byte * (Z * option error) :=
  (b ++ p, (len p, None)).

Record Sys := mkSys {
  cfg : EasyLog;
  world : World;
  heap : list (list byte);   (* every bytes.Buffer allocated by pool.New *)
  pool : list nat;           (* the buffers held by the sync.Pool *)
  Pipe : list nat;           (* the buffers queued in the channel Pipe *)
  tmC : bool;                (* a tick is buffered in tm.C *)
  pump : Pump
}.

(** [NewLog] followed by the configuration: nothing allocated, nothing
    queued, the pump at the start of [do]. *)
Definition sys_init (t : EasyLog) (d : gmap string (list byte)) : Sys :=
  {| cfg := t; world := {| dir := d; ch := []; calls := [] |};
     heap := []; pool := []; Pipe := []; tmC := false;
     pump := pump_start t |}.

(** [t.pool.Get()]: [pick] is the pool's choice, a buffer it holds or a new
    one from [pool.New]. Returns the buffer, the heap and the pool. *)
Definition pool_Get (pick : option nat) (s : Sys)
  : nat * list (list byte) * list nat :=
  match pick with
  | Some i =>
      match pool s !! i with
      | Some b => (b, heap s, delete i (pool s))
      | None => (length (heap s), heap s ++ [[]], pool s)
      end
  | None => (length (heap s), heap s ++ [[]], pool s)
  end.

(** [Write]: the returned pair and the sink afterwards; [None] while the
    send on a full [Pipe] blocks.  Until the send the buffer belongs to the
    caller alone, so the call is one step at its send. *)
Definition Write (p : list byte) (pick : option nat) (s : Sys)
  : option ((Z * option error) * Sys) :=
  let '(b, h, pl) := pool_Get pick s in
  let h1 := <[b := []]> h in                                   (* buf.Reset() *)
  let '(content, ret) := Buffer_Write (default [] (h1 !! b)) p in
  let h2 := <[b := content]> h1 in
  if len (Pipe s) <? PipeCap (cfg s) then
    Some (ret, {| cfg := cfg s; world := world s; heap := h2; pool := pl;
                  Pipe := Pipe s ++ [b]; tmC := tmC s; pump := pump s |})
  else None.

(** What [filepath.Walk(t.SaveDir, ...)] visits: the root, then its entries
    in lexical order.  With an empty [SaveDir] the root cannot be read and
    the callback is called once, with a nil [FileInfo]. *)
Definition Walk (t : EasyLog) (w : World) : list (option FileInfo) :=
  if String.eqb (SaveDir t) "" then [None]
  else
    Some {| fi_Name := SaveDir t; fi_IsDir := true |}
    :: map (fun n => Some {| fi_Name := n; fi_IsDir := false |})
         (merge_sort str_le (elements (dom (dir w)))).

Inductive Event :=
| EWrite (p : list byte) (pick : option nat)   (* a producer's Write *)
| EPoolDrop                  (* the runtime empties the sync.Pool *)
| ETimer                     (* the ticker fires *)
| ERecv                      (* the pump receives from Pipe *)
| ETick (io : IO)            (* the pump receives from tm.C *)
| ESweep                     (* the sweeper receives from ch and sweeps *)
| ESetMaxFileSize (m : Z)
| ESetMaxFileCount (m : Z).

Definition with_pump (s : Sys) (w : World) (tick : bool) (p : Pump) : Sys :=
  {| cfg := cfg s; world := w; heap := heap s; pool := pool s;
     Pipe := Pipe s; tmC := tick; pump := p |}.

(** The pump after [_writeFile] was called on its buffer: [data.Reset()],
    or the restart of [do] after a panic, with a new ticker. *)
Definition flush (s : Sys) (io : IO) (recompute : bool) : Sys :=
  match _writeFile (cfg s) io (data (pump s)) (world s) with
  | Returns _ w =>
      let m := if recompute then CalcMaxCacheSize (cfg s)
               else maxCacheSize (pump s) in
      with_pump s w false
        (if recompute then after_select [] m
         else {| data := []; maxCacheSize := m; pc := AtSelect |})
  | Panics w => with_pump s w false (pump_start (cfg s))
  end.

Definition step (s : Sys) (e : Event) : option Sys :=
  match e with
  | EWrite p pick => snd <$> Write p pick s
  | EPoolDrop =>
      Some {| cfg := cfg s; world := world s; heap := heap s; pool := [];
              Pipe := Pipe s; tmC := tmC s; pump := pump s |}
  | ETimer => Some (with_pump s (world s) true (pump s))
  | ERecv =>
      match pc (pump s), Pipe s with
      | AtSelect, v :: rest =>
          let d := data (pump s) ++ default [] (heap s !! v) in
          Some {| cfg := cfg s; world := world s;
                  heap := <[v := []]> (heap s);                (* v.Reset() *)
                  pool := v :: pool s;                         (* pool.Put(v) *)
                  Pipe := rest; tmC := tmC s;
                  pump := after_select d (maxCacheSize (pump s)) |}
      | _, _ => None
      end
  | ETick io =>
      if tmC s then
        match pc (pump s) with
        | AtSelect =>
            if len (data (pump s)) >? 0 then Some (flush s io true)
            else
              Some (with_pump s (world s) false
                      (after_select (data (pump s)) (CalcMaxCacheSize (cfg s))))
        | AtWaitTick => Some (flush s io false)
        end
      else None
  | ESweep =>
      match chan_recv (ch (world s)) with
      | None => None
      | Some (_, c) =>
          match cleanFile (cfg s) (Walk (cfg s) (world s)) with
          | None => None
          | Some names =>
              let w := foldl (fun w n => Remove n w)
                         {| dir := dir (world s); ch := c;
                            calls := calls (world s) |} names in
              Some (with_pump s w (tmC s) (pump s))
          end
      end
  | ESetMaxFileSize m =>
      Some {| cfg := SetMaxFileSize m (cfg s); world := world s;
              heap := heap s; pool := pool s; Pipe := Pipe s; tmC := tmC s;
              pump := pump s |}
  | ESetMaxFileCount m =>
      Some {| cfg := SetMaxFileCount m (cfg s); world := world s;
              heap := heap s; pool := pool s; Pipe := Pipe s; tmC := tmC s;
              pump := pump s |}
  end.

Fixpoint run (s : Sys) (es : list Event) : option Sys :=
  match es with
  | [] => Some s
  | e :: es' =>
      match step s e with
      | None => None
      | Some s' => run s' es'
      end
  end.

(** The payloads of the [Write] calls of a schedule, in the order of their
    sends on [Pipe]. *)
Fixpoint payloads (es : list Event) : list (list byte) :=
  match es with
  | [] => []
  | EWrite p _ :: rest => p :: payloads rest
  | _ :: rest => payloads rest
  end.

(** No operation fails in any flush of the schedule. *)
Fixpoint faultless (es : list Event) : Prop :=
  match es with
  | [] => True
  | ETick io :: rest => io_ok io /\ faultless rest
  | _ :: rest => faultless rest
  end.

(** The world once [_tryWrite] has opened the active file and read its
    size. *)
Definition opened (t : EasyLog) (w : World) : World :=
  {| dir := <[FileName t := default [] (dir w !! FileName t)]> (dir w);
     ch := ch w;
     calls := calls w ++ [SysOpen (FileName t) true;
                          SysStat (FileName t) (file_size (FileName t) w)] |}.

(** A run of the writer: the calls of [_writeFile] the pump makes, one after
    the other, each with what the system decides during it.  The pump
    recovers from a panic and goes on, so the world is threaded through
    both outcomes. *)
Fixpoint writeFile_seq (t : EasyLog) (cs : list (IO * list byte)) (w : World)
  : World :=
  match cs with
  | [] => w
  | (io, d) :: rest => writeFile_seq t rest (world_of (_writeFile t io d w))
  end.

(** The bytes of the buffers queued in [Pipe], oldest first. *)
Definition queued (s : Sys) : list byte :=
  concat (map (fun b => default [] (heap s !! b)) (Pipe s)).

(** Every byte the sink holds or has written, in order: the bytes written
    to the active file, then the accumulation buffer, then the queue. *)
Definition stream (s : Sys) : list byte :=
  appended (FileName (cfg s)) (calls (world s)) ++ data (pump s) ++ queued s.

(** Ownership of the buffers: a buffer is queued or pooled at most once, and
    every buffer queued or pooled was allocated. *)
Definition buffers_ok (s : Sys) : Prop :=
  NoDup (Pipe s ++ pool s)
  /\ Forall (fun b => (b < length (heap s))%nat) (Pipe s ++ pool s).

(** ** Configuring the sink *)




(** The sends of [nofityDelFile] in a schedule of the trigger. *)
Fixpoint sends (es : list trigger_step) : nat :=
  match es with
  | [] => 0
  | TNotifySend :: rest => S (sends rest)
  | _ :: rest => sends rest
  end.

(** What the pump keeps, for payloads of at most [B] bytes: the cache size
    lies between 0 and 1 MiB; in the select the buffer is within the cache
    size; in the wait for the ticker it is beyond it by at most one payload;
    and every queued buffer holds at most [B] bytes. *)
Definition pump_inv (B : Z) (s : Sys) : Prop :=
  0 <= MaxFileSize (cfg s)
  /\ 0 <= maxCacheSize (pump s) <= 1024 * 1024
  /\ (pc (pump s) = AtSelect -> len (data (pump s)) <= maxCacheSize (pump s))
  /\ (pc (pump s) = AtWaitTick ->
      maxCacheSize (pump s) < len (data (pump s)) <= maxCacheSize (pump s) + B)
  /\ Forall (fun b => len (default [] (heap s !! b)) <= B) (Pipe s).

(** With a cap of at least 1 MiB, which is all the setters allow, the cache
    size is 1 MiB. *)
Definition cap_inv (s : Sys) : Prop :=
  1024 * 1024 <= MaxFileSize (cfg s) /\ maxCacheSize (pump s) = 1024 * 1024.

(** A clock reading whose fields have the width [Format] gives them. *)
Definition valid_time (a : Time) : Prop :=
  Z.of_nat (year a) < 10000 /\ Z.of_nat (month a) < 100
  /\ Z.of_nat (day a) < 100 /\ Z.of_nat (hour a) < 100
  /\ Z.of_nat (minute a) < 100 /\ Z.of_nat (second a) < 100.

(** The clock reading as one number: readings compare as these numbers do. *)
Definition time_value (a : Time) : Z :=
  Z.of_nat (year a) * 10000000000 + Z.of_nat (month a) * 100000000
  + Z.of_nat (day a) * 1000000 + Z.of_nat (hour a) * 10000
  + Z.of_nat (minute a) * 100 + Z.of_nat (second a).

(** ** Concrete configurations and inputs used below *)

Definition sweep_cfg (K : Z) : EasyLog :=
  SetMaxFileCount K (fst (SetDir "logs" "log.txt" false (NewLog 10 0))).

Definition rotated3 : list string :=
  ["log.txt.20240103000000"; "log.txt.20240101000000";
   "log.txt.20240102000000"].

Definition as_file (n : string) : option FileInfo :=
  Some {| fi_Name := n; fi_IsDir := false |}.

(** Four names that are not the base name, a dot and 14 digits. *)
Definition not_rotated4 : list string :=
  ["log.txt.20240101000000.bak"; "mylog.txt.20240101000000";
   "logxtxt.20240101000000"; "log.txt.202401010000009"].

Definition noon : Time :=
  {| year := 2024; month := 1; day := 2; hour := 12; minute := 0; second := 0 |}.

Definition empty_world : World := {| dir := ∅; ch := []; calls := [] |}.

(** The sink as [NewLog(10, 0)] and [SetDir("logs", "log.txt")] leave it. *)
Definition default_cfg : EasyLog :=
  fst (SetDir "logs" "log.txt" false (NewLog 10 0)).

(** The same with the smallest cap [SetMaxFileSize] accepts, 1 MiB. *)
Definition mib_cfg : EasyLog := SetMaxFileSize 0 default_cfg.

Definition ab : list byte := [Byte.x61; Byte.x62].
Definition cd : list byte := [Byte.x63; Byte.x64].

(** A payload one byte longer than 1 MiB. *)
Definition over_mib : list byte := repeat Byte.x61 (Z.to_nat (1024 * 1024 + 1)).

(** The open of [_tryWrite] fails, nothing else does. *)
Definition open_fails : IO :=
  {| open_try_err := true; stat_err := false; copy_try_short := None;
     rename_err1 := false; rename_err2 := false; open_must_err := false;
     copy_must_short := None; now := noon |}.

(** The sink with one [Write] of [over_mib] queued and no tick buffered, and
    the same after the pump has received it. *)
Definition sys_over : Sys :=
  {| cfg := mib_cfg; world := empty_world; heap := [over_mib]; pool := [];
     Pipe := [0%nat]; tmC := false; pump := pump_start mib_cfg |}.

Definition sys_over_recv : Sys := default sys_over (step sys_over ERecv).

(** Three [Write]s, the third into a buffer the pump has put back into the
    pool, then a tick. *)
Definition three_writes : list Event :=
  [EWrite ab None; EWrite cd None; ERecv; EWrite ab (Some 0%nat); ERecv;
   ERecv; ETimer; ETick (no_faults noon)].

Definition after_three_writes : Sys :=
  default (sys_init default_cfg ∅) (run (sys_init default_cfg ∅) three_writes).

(** One [Write], then a tick whose flush cannot open the file. *)
Definition failed_flush : list Event :=
  [EWrite ab None; ERecv; ETimer; ETick open_fails].

Definition after_failed_flush : Sys :=
  default (sys_init default_cfg ∅) (run (sys_init default_cfg ∅) failed_flush).

(** Both attempts of [os.Rename] fail, nothing else does. *)
Definition rename_fails : IO :=
  {| open_try_err := false; stat_err := false; copy_try_short := None;
     rename_err1 := true; rename_err2 := true; open_must_err := false;
     copy_must_short := None; now := noon |}.

(** The first attempt of [os.Rename] fails, the second succeeds. *)
Definition rename_fails_once : IO :=
  {| open_try_err := false; stat_err := false; copy_try_short := None;
     rename_err1 := true; rename_err2 := false; open_must_err := false;
     copy_must_short := None; now := noon |}.

(** The open of [_mustWrite] fails, nothing else does. *)
Definition reopen_fails : IO :=
  {| open_try_err := false; stat_err := false; copy_try_short := None;
     rename_err1 := false; rename_err2 := false; open_must_err := true;
     copy_must_short := None; now := noon |}.

(** [f.Stat] fails. *)
Definition stat_fails : IO :=
  {| open_try_err := false; stat_err := true; copy_try_short := None;
     rename_err1 := false; rename_err2 := false; open_must_err := false;
     copy_must_short := None; now := noon |}.

(** The write of [_tryWrite] stops after one byte. *)
Definition short_write : IO :=
  {| open_try_err := false; stat_err := false; copy_try_short := Some 1%nat;
     rename_err1 := false; rename_err2 := false; open_must_err := false;
     copy_must_short := None; now := noon |}.

(** A world whose active file holds two bytes. *)
Definition world_ab : World :=
  {| dir := {["log.txt" := ab]}; ch := []; calls := [] |}.

(** One [Write] received by the pump, and a tick buffered. *)
Definition sys_ab_ticked : Sys :=
  default (sys_init default_cfg ∅)
    (run (sys_init default_cfg ∅) [EWrite ab None; ERecv; ETimer]).

(** One [Write] of [over_mib] received by the pump, and a tick buffered. *)
Definition sys_over_ticked : Sys :=
  default (sys_init mib_cfg ∅)
    (run (sys_init mib_cfg ∅) [EWrite over_mib None; ERecv; ETimer]).


Definition one_second_later : Time :=
  {| year := 2024; month := 1; day := 2; hour := 12; minute := 0; second := 1 |}.

(** * Verification *)

(** ** Machine integers *)

Lemma wrap64_id (z : Z) : - 2 ^ 63 <= z < 2 ^ 63 -> wrap64 z = z.
Proof. intros Hz. unfold wrap64. rewrite Z.mod_small; lia. Qed.

Lemma add64_small (a b : Z) : 0 <= a -> 0 <= b -> a + b <= max_int64 -> add64 a b = a + b.
Proof. unfold max_int64, add64. intros. apply wrap64_id. lia. Qed.

Lemma gtb_of_gt (a b : Z) : a > b -> (a >? b) = true.
Proof. intros H. apply Z.gtb_lt. lia. Qed.

Lemma len_nonneg {A} (l : list A) : 0 <= len l.
Proof. unfold len. lia. Qed.

Lemma len_app {A} (l1 l2 : list A) : len (l1 ++ l2) = len l1 + len l2.
Proof. unfold len. rewrite length_app. lia. Qed.

(** ** The order of file names *)

Lemma str_compare_lt_trans (a : string) : forall b c,
  String.compare a b = Lt -> String.compare b c = Lt -> String.compare a c = Lt.
Proof.
  induction a as [|x a IH]; intros [|y b] [|z c]; simpl; try done.
  unfold Ascii.compare.
  destruct (N.compare_spec (N_of_ascii x) (N_of_ascii y)) as [E1|L1|G1];
    try done;
    destruct (N.compare_spec (N_of_ascii y) (N_of_ascii z)) as [E2|L2|G2];
    try done;
    destruct (N.compare_spec (N_of_ascii x) (N_of_ascii z)) as [E3|L3|G3];
    try done; try lia.
  apply IH.
Qed.

Global Instance str_le_trans : Transitive str_le.
Proof.
  intros a b c. unfold str_le, String.leb.
  destruct (String.compare a b) eqn:Eab; try done.
  - apply String.compare_eq_iff in Eab. by subst.
  - destruct (String.compare b c) eqn:Ebc; try done.
    + apply String.compare_eq_iff in Ebc. subst. by rewrite Eab.
    + by rewrite (str_compare_lt_trans a b c).
Qed.

Global Instance str_le_total : Total str_le.
Proof. intros a b. apply String.leb_total. Qed.

Global Instance str_le_antisym : AntiSymm (=) str_le.
Proof. intros a b. apply String.leb_antisym. Qed.

Lemma sort_Slice_sorted (l : list string) : StronglySorted str_le (sort_Slice l).
Proof. apply StronglySorted_merge_sort; apply _. Qed.

Lemma sort_Slice_perm (l : list string) : sort_Slice l ≡ₚ l.
Proof. apply merge_sort_Permutation. Qed.

(** Whatever algorithm [sort.Slice] runs, its result is this list. *)
Lemma sort_Slice_unique (l l' : list string) :
  Sorted str_le l' -> l' ≡ₚ l -> l' = sort_Slice l.
Proof.
  intros Hs Hp. apply (Sorted_unique str_le); [done | |].
  - apply Sorted_merge_sort; apply _.
  - by rewrite sort_Slice_perm.
Qed.

Lemma sort_Slice_len (l : list string) : len (sort_Slice l) = len l.
Proof. unfold len. by rewrite (Permutation_length (sort_Slice_perm l)). Qed.

(** ** The retention sweep *)

Lemma remove_loop_in_range (l : list string) : forall k i,
  (i + k <= length l)%nat -> remove_loop l i k = (take k (drop i l), false).
Proof.
  induction k as [|k IH]; intros i Hik; simpl.
  - by rewrite take_0.
  - destruct (l !! i) as [name|] eqn:E.
    + rewrite IH by lia. by rewrite (drop_S l name i E).
    + apply lookup_ge_None in E. lia.
Qed.

Lemma cleanFile_remove_disabled (t : EasyLog) (flist : list string) :
  MaxFileCount t <= 0 -> cleanFile_remove t flist = ([], false).
Proof.
  intros HK. unfold cleanFile_remove.
  by destruct (Z.leb_spec (MaxFileCount t) 0); [|lia].
Qed.

Lemma cleanFile_remove_within (t : EasyLog) (flist : list string) :
  len flist < max_int64 -> 0 < MaxFileCount t ->
  len flist + 1 <= MaxFileCount t -> cleanFile_remove t flist = ([], false).
Proof.
  intros Hn HK Hle. unfold cleanFile_remove.
  destruct (Z.leb_spec (MaxFileCount t) 0); [lia|].
  pose proof (len_nonneg flist).
  rewrite add64_small by lia.
  by destruct (Z.leb_spec (len flist + 1) (MaxFileCount t)); [|lia].
Qed.

Lemma cleanFile_remove_beyond (t : EasyLog) (flist : list string) :
  len flist < max_int64 -> 0 < MaxFileCount t ->
  MaxFileCount t < len flist + 1 ->
  cleanFile_remove t flist =
    (take (Z.to_nat (len flist + 1 - MaxFileCount t)) (sort_Slice flist), false).
Proof.
  intros Hn HK Hgt. unfold cleanFile_remove.
  destruct (Z.leb_spec (MaxFileCount t) 0); [lia|].
  pose proof (len_nonneg flist).
  rewrite sort_Slice_len.
  rewrite add64_small by lia.
  destruct (Z.leb_spec (len flist + 1) (MaxFileCount t)); [lia|].
  unfold sub64. rewrite wrap64_id by (unfold max_int64 in Hn; lia).
  rewrite remove_loop_in_range.
  - by rewrite drop_0.
  - pose proof (sort_Slice_len flist) as Hl. unfold len in *. lia.
Qed.

(** C5 (as amended).  A sweep pass over [n] matched names with retention
    count [K]: for [K <= 0] nothing is removed; for [K > 0] and [n + 1 <= K]
    nothing is removed; for [K > 0] and [n + 1 > K] the names removed are
    exactly the first [n + 1 - K] of the names in ascending order, every
    removed name is below every kept one, removed and kept names together are
    the names listed, and [K - 1] names are kept.  In particular [n = K]
    matched names lose exactly one and [n = K + 1] lose exactly two, both
    leaving [K - 1].  The loop never indexes out of range. *)
Theorem sweep_removes_oldest (t : EasyLog) (flist : list string) :
  len flist < max_int64 ->
  let K := MaxFileCount t in
  let n := len flist in
  let removed := fst (cleanFile_remove t flist) in
  let kept := kept_after t flist in
  snd (cleanFile_remove t flist) = false
  /\ (K <= 0 -> removed = [])
  /\ (0 < K -> n + 1 <= K -> removed = [])
  /\ (0 < K -> K < n + 1 ->
        removed = take (Z.to_nat (n + 1 - K)) (sort_Slice flist)
        /\ len removed = n + 1 - K
        /\ removed ++ kept ≡ₚ flist
        /\ (forall x y, x ∈ removed -> y ∈ kept -> str_le x y)
        /\ len kept = K - 1)
  /\ (0 < K -> n = K -> len removed = 1 /\ len kept = K - 1)
  /\ (0 < K -> n = K + 1 -> len removed = 2 /\ len kept = K - 1).
Proof.
  intros Hn K n removed kept.
  assert (Hbeyond : 0 < K -> K < n + 1 ->
        removed = take (Z.to_nat (n + 1 - K)) (sort_Slice flist)
        /\ len removed = n + 1 - K
        /\ removed ++ kept ≡ₚ flist
        /\ (forall x y, x ∈ removed -> y ∈ kept -> str_le x y)
        /\ len kept = K - 1).
  { intros HK Hgt. subst removed kept. unfold kept_after.
    rewrite (cleanFile_remove_beyond t flist Hn HK Hgt). simpl.
    fold K n. set (m := Z.to_nat (n + 1 - K)).
    pose proof (sort_Slice_len flist) as Hl. fold n in Hl. unfold len in Hl.
    assert (Hm : (m <= length (sort_Slice flist))%nat) by (subst m; lia).
    assert (Htake : length (take m (sort_Slice flist)) = m)
      by (by apply length_take_le).
    rewrite Htake. split; [done|]. split.
    { unfold len. rewrite Htake. subst m. lia. }
    split. { rewrite take_drop. apply sort_Slice_perm. }
    split.
    { intros x y Hx Hy.
      pose proof (sort_Slice_sorted flist) as Hs.
      rewrite <- (take_drop m (sort_Slice flist)) in Hs.
      apply StronglySorted_app in Hs as (Hlt & _ & _). by apply Hlt. }
    unfold len. rewrite length_drop. subst m. lia. }
  split.
  { destruct (Z.leb_spec K 0) as [H0|H0].
    - by rewrite cleanFile_remove_disabled.
    - destruct (Z.leb_spec (n + 1) K) as [H1|H1].
      + by rewrite cleanFile_remove_within.
      + by rewrite cleanFile_remove_beyond. }
  split. { intros HK. subst removed. by rewrite cleanFile_remove_disabled. }
  split. { intros HK Hle. subst removed. by rewrite cleanFile_remove_within. }
  split; [exact Hbeyond|].
  split.
  - intros HK HnK. destruct Hbeyond as (_ & Hr & _ & _ & Hk); [done|lia|].
    split; [lia|done].
  - intros HK HnK. destruct Hbeyond as (_ & Hr & _ & _ & Hk); [done|lia|].
    split; [lia|done].
Qed.

Lemma sweep_removes_oldest_witness :
  fst (cleanFile_remove (sweep_cfg 2) rotated3)
  = take 2 (sort_Slice rotated3).
Proof.
  assert (Hn : len rotated3 < max_int64) by (vm_compute; reflexivity).
  destruct (sweep_removes_oldest (sweep_cfg 2) rotated3 Hn)
    as (_ & _ & _ & H & _).
  destruct H as (Hr & _); [vm_compute; reflexivity .. | exact Hr].
Defined.

(** C5, the boundary case as the specification words it, fails: with
    [K = 2] and [K + 1 = 3] rotated files listed, the sweep removes two
    files and leaves one; when the rotation that woke the sweeper has added
    a fourth, it removes three and leaves one.  In neither reading is
    exactly one file removed, and in neither are [K] left. *)
Lemma sweep_boundary_counterexample :
  let t := sweep_cfg 2 in
  let four := "log.txt.20240104000000" :: rotated3 in
  MaxFileCount t = 2
  /\ len rotated3 = MaxFileCount t + 1
  /\ fst (cleanFile_remove t rotated3)
     = ["log.txt.20240101000000"; "log.txt.20240102000000"]
  /\ kept_after t rotated3 = ["log.txt.20240103000000"]
  /\ fst (cleanFile_remove t four)
     = ["log.txt.20240101000000"; "log.txt.20240102000000";
        "log.txt.20240103000000"]
  /\ kept_after t four = ["log.txt.20240104000000"]
  /\ ~ (len (fst (cleanFile_remove t rotated3)) = 1
        /\ len (kept_after t rotated3) = MaxFileCount t)
  /\ ~ (len (fst (cleanFile_remove t four)) = 1
        /\ len (kept_after t four) = MaxFileCount t).
Proof. vm_compute. repeat split; try reflexivity; intros [H _]; discriminate H. Qed.

(** ** The names the sweep selects *)

Lemma is_digit_digit_char (n : nat) : is_digit (digit_char n) = true.
Proof.
  unfold is_digit, digit_char.
  pose proof (Nat.mod_upper_bound n 10 ltac:(lia)) as Hlt.
  rewrite nat_ascii_embedding by lia.
  apply andb_true_iff. split; apply Nat.leb_le; lia.
Qed.

Lemma is_digit_ascii7 (c : ascii) : is_digit c = true -> is_ascii7 c = true.
Proof.
  unfold is_digit, is_ascii7. intros H. apply andb_true_iff in H as [_ H].
  apply Nat.leb_le in H. apply Nat.ltb_lt. lia.
Qed.

Lemma all_digits_app (a b : string) :
  all_digits (a ++ b) = all_digits a && all_digits b.
Proof.
  unfold all_digits. induction a as [|c a IH]; simpl; [done|].
  by rewrite IH, andb_assoc.
Qed.

Lemma all_ascii7_app (a b : string) :
  all_ascii7 (a ++ b) = all_ascii7 a && all_ascii7 b.
Proof.
  unfold all_ascii7. induction a as [|c a IH]; simpl; [done|].
  by rewrite IH, andb_assoc.
Qed.

Lemma all_digits_ascii7 (d : string) : all_digits d = true -> all_ascii7 d = true.
Proof.
  unfold all_digits, all_ascii7. induction d as [|c d IH]; simpl; [done|].
  intros H. apply andb_true_iff in H as [Hc Hd].
  by rewrite (is_digit_ascii7 c Hc), IH.
Qed.

Lemma Format_digits (now : Time) :
  all_digits (Format now) = true /\ String.length (Format now) = 14%nat.
Proof.
  split; [|reflexivity].
  unfold Format, fmt4, fmt2.
  rewrite !all_digits_app. unfold all_digits.
  cbn [list_ascii_of_string forallb].
  by rewrite !is_digit_digit_char.
Qed.

Lemma compile_name_ascii7 (base : string) : forall r,
  compile_name base = Some r -> all_ascii7 base = true.
Proof.
  unfold all_ascii7.
  induction base as [|c base IH]; simpl; intros r H; [done|].
  destruct (is_ascii7 c); simpl in *; [|done].
  destruct (is_meta c); [done|].
  destruct (compile_name base) as [r'|]; [|done]. by rewrite (IH r').
Qed.

(** The compiled file name matches the file name itself, as a prefix. *)
Lemma match_here_compile_name (base : string) : forall r r' s,
  compile_name base = Some r ->
  match_here (r ++ r') (base ++ s) = match_here r' s.
Proof.
  induction base as [|c base IH]; simpl; intros r r' s H.
  - by inversion H.
  - destruct (negb (is_ascii7 c) || is_meta c); [done|].
    destruct (compile_name base) as [r0|] eqn:E; [|done].
    inversion H; subst; clear H. simpl. rewrite (IH r0 r' s eq_refl).
    destruct (Ascii.eqb_spec c "."); simpl.
    + subst. reflexivity.
    + by rewrite Ascii.eqb_refl.
Qed.

Lemma match_here_digits (d : string) :
  all_digits d = true ->
  match_here (repeat Digit (String.length d)) d = true.
Proof.
  unfold all_digits. induction d as [|c d IH]; simpl; [done|].
  intros H. apply andb_true_iff in H as [Hc Hd]. by rewrite Hc, IH.
Qed.

Lemma match_anywhere_here (r : list atom) (s : string) :
  match_here r s = true -> match_anywhere r s = true.
Proof. intros H. destruct s; simpl in *; by rewrite H. Qed.

(** Every name of the form base name, dot, 14 digits is selected: one half
    of the equivalence of C9 holds for plain base names. *)
Lemma rotated_names_are_matched (base d : string) (r : list atom) :
  compile_expr base = Some r ->
  all_digits d = true -> String.length d = 14%nat ->
  MatchString r (base ++ "." ++ d) = Some true.
Proof.
  unfold compile_expr, MatchString. intros Hr Hd Hlen.
  destruct (compile_name base) as [r0|] eqn:E; [|done].
  assert (r = r0 ++ Lit "." :: repeat Digit 14) as -> by congruence.
  clear Hr.
  rewrite !all_ascii7_app, (compile_name_ascii7 base r0 E).
  rewrite (all_digits_ascii7 d Hd).
  change (all_ascii7 ".") with true. cbn [andb]. f_equal.
  apply match_anywhere_here.
  rewrite (match_here_compile_name base r0 _ _ E).
  change (String.append "." d) with (String "." d).
  change (match_here (Lit "." :: repeat Digit 14) (String "." d))
    with (true && match_here (repeat Digit 14) d).
  cbn [andb]. rewrite <- Hlen. by apply match_here_digits.
Qed.

(** The names [_rename] gives to rotated files are selected. *)
Lemma renamed_files_are_matched (t : EasyLog) (now : Time) (r : list atom) :
  compile_expr (FileName t) = Some r ->
  MatchString r (rotated_name t now) = Some true.
Proof.
  intros Hr. destruct (Format_digits now) as [Hd Hl].
  by apply rotated_names_are_matched.
Qed.

(** C9 (the code departs from it).  With base name [log.txt] and retention
    count 1, a directory holding four files, none of which is the base name
    followed by a dot and exactly 14 digits, has all four selected and
    removed by the sweep: the expression is not anchored, so a longer name
    that contains a rotated name matches, and the dot of the base name
    matches any character. *)
Theorem sweep_selects_names_that_are_not_rotated :
  let t := sweep_cfg 1 in
  FileName t = "log.txt"
  /\ forallb (fun n => negb (is_rotated_name (FileName t) n)) not_rotated4 = true
  /\ cleanFile t (map as_file not_rotated4)
     = Some ["log.txt.20240101000000.bak"; "log.txt.202401010000009";
             "logxtxt.20240101000000"; "mylog.txt.20240101000000"].
Proof. vm_compute. repeat split; reflexivity. Qed.

(** ** The trigger of the sweeper *)

Lemma trigger_init_inv : trigger_inv trigger_init.
Proof. split; [simpl; lia | done]. Qed.

Lemma trigger_next_inv (s s' : Trigger) (e : trigger_step) :
  trigger_inv s -> trigger_next s e = Some s' -> trigger_inv s'.
Proof.
  intros [Hlen Hsend]. unfold trigger_next, trigger_inv.
  destruct e, (tr_notifier s) eqn:En, (tr_sweeper s) eqn:Es;
    intros H; simplify_eq/=; try done;
    try (split; [done|]; destruct (tr_ch s); simpl; done).
  all: try (rewrite (Hsend eq_refl) in *; simplify_eq/=; split; [lia|done]).
  all: destruct (tr_ch s) as [|v [|v' rest]]; simplify_eq/=; try lia;
    split; [lia|done].
Qed.

Lemma trigger_run_inv (es : list trigger_step) : forall s s',
  trigger_inv s -> trigger_run s es = Some s' -> trigger_inv s'.
Proof.
  induction es as [|e es IH]; simpl; intros s s' Hinv H; [by simplify_eq|].
  destruct (trigger_next s e) as [s1|] eqn:E; [|done].
  eapply IH; [|done]. by eapply trigger_next_inv.
Qed.

(** A call with a signal already queued changes nothing. *)
Lemma notify_calls_pending (n : nat) : forall s,
  tr_notifier s = NIdle -> tr_ch s = [1] -> notify_calls s n = Some s.
Proof.
  induction n as [|n IH]; intros s Hn Hc; [done|].
  destruct s as [c nt sw ps]. simpl in *. subst. simpl. by apply IH.
Qed.

(** A call on the empty channel queues one signal. *)
Lemma notify_calls_empty (n : nat) (s : Trigger) :
  tr_notifier s = NIdle -> tr_ch s = [] ->
  notify_calls s (S n) =
    Some {| tr_ch := [1]; tr_notifier := NIdle;
            tr_sweeper := tr_sweeper s; tr_passes := tr_passes s |}.
Proof.
  intros Hn Hc. destruct s as [c nt sw ps]. simpl in *. subst. simpl.
  by apply notify_calls_pending.
Qed.

(** C7.  In every state the trigger can reach (any interleaving of calls of
    [nofityDelFile] with the sweeper): at most one signal is queued and the
    notifier's send cannot block; [n] calls while a signal is queued leave
    the state as it is; [n >= 1] calls in a row, with no step of the sweeper
    between them, leave exactly one signal queued and start no sweep pass;
    and the sweeper, once it waits, then makes exactly one pass: its receive
    succeeds once, and after that pass the next receive blocks. *)
Theorem trigger_coalesces (es : list trigger_step) (s : Trigger) (n : nat) :
  trigger_run trigger_init es = Some s ->
  (length (tr_ch s) <= 1)%nat
  /\ (tr_notifier s = NSend -> is_Some (trigger_next s TNotifySend))
  /\ (tr_notifier s = NIdle -> tr_ch s = [1] -> notify_calls s n = Some s)
  /\ (tr_notifier s = NIdle -> (0 < n)%nat ->
      exists s',
        notify_calls s n = Some s'
        /\ tr_ch s' = [1] /\ tr_notifier s' = NIdle
        /\ tr_passes s' = tr_passes s /\ tr_sweeper s' = tr_sweeper s
        /\ (tr_sweeper s' = SWait ->
            exists s1 s2,
              trigger_next s' TSweeperRecv = Some s1
              /\ tr_passes s1 = S (tr_passes s)
              /\ trigger_next s1 TSweeperDone = Some s2
              /\ tr_passes s2 = S (tr_passes s)
              /\ trigger_next s2 TSweeperRecv = None)).
Proof.
  intros Hrun.
  pose proof (trigger_run_inv es _ _ trigger_init_inv Hrun) as [Hlen Hsend].
  split; [done|]. split.
  { intros Hn. unfold trigger_next. rewrite Hn, (Hsend Hn). simpl. eauto. }
  split. { intros Hn Hc. by apply notify_calls_pending. }
  intros Hn Hpos. destruct n as [|n]; [lia|].
  assert (Hone : exists s', notify_calls s (S n) = Some s'
      /\ tr_ch s' = [1] /\ tr_notifier s' = NIdle
      /\ tr_passes s' = tr_passes s /\ tr_sweeper s' = tr_sweeper s).
  { destruct (tr_ch s) as [|v [|v' rest]] eqn:Ec; simpl in Hlen; [| |lia].
    - eexists. split; [by apply notify_calls_empty|done].
    - assert (Hall : forall es s s', Forall (eq 1) (tr_ch s) ->
                trigger_run s es = Some s' -> Forall (eq 1) (tr_ch s')).
      { clear. induction es as [|e es IH]; simpl; intros s s' Hf H;
          [by simplify_eq|].
        destruct (trigger_next s e) as [s1|] eqn:E; [|done].
        eapply IH; [|done]. clear IH H.
        unfold trigger_next in E.
        destruct e, (tr_notifier s), (tr_sweeper s); simplify_eq/=;
          try done.
        all: try (unfold chan_send in E;
                  destruct (length (tr_ch s) <? ch_cap)%nat; simplify_eq/=;
                  apply Forall_app; split; [done|by constructor]).
        all: destruct (tr_ch s) as [|v0 r0]; simplify_eq/=;
          by inversion Hf. }
      (* the only value ever sent is 1 *)
      specialize (Hall es trigger_init s (Forall_nil_2 _) Hrun).
      rewrite Ec in Hall.
      inversion Hall; subst.
      exists s. split; [by apply notify_calls_pending|done]. }
  destruct Hone as (s' & Hcalls & Hc & Hn' & Hp & Hs).
  exists s'. repeat (split; [done|]).
  intros Hw. clear Hcalls. destruct s' as [c nt sw ps]. simpl in *.
  subst c nt ps. rewrite Hw.
  eexists _, _. cbn. repeat split.
Qed.

Lemma trigger_coalesces_witness :
  exists s',
    notify_calls trigger_init 5 = Some s' /\ tr_ch s' = [1]
    /\ tr_passes s' = 0%nat.
Proof.
  destruct (trigger_coalesces [] trigger_init 5 eq_refl) as (_ & _ & _ & H).
  destruct H as (s' & H1 & H2 & _ & H3 & _); [reflexivity | lia |].
  exists s'. repeat split; assumption.
Defined.

(** ** The File Writer *)

Lemma file_size_nonneg (name : string) (w : World) : 0 <= file_size name w.
Proof. unfold file_size. destruct (dir w !! name); [apply len_nonneg|lia]. Qed.

Lemma file_size_default (name : string) (w : World) :
  file_size name w = len (default [] (dir w !! name)).
Proof. unfold file_size. by destruct (dir w !! name). Qed.

Lemma OpenFile_ok (name : string) (w : World) :
  OpenFile name false w
  = (true, log_call (SysOpen name true)
             (set_dir (<[name := default [] (dir w !! name)]> (dir w)) w)).
Proof.
  unfold OpenFile. destruct (dir w !! name) as [c|] eqn:E; simpl; [|done].
  by rewrite (insert_id _ _ _ E).
Qed.

Lemma length_append (a b : string) :
  String.length (a ++ b) = (String.length a + String.length b)%nat.
Proof. induction a as [|c a IH]; simpl; [done|by rewrite IH]. Qed.

Lemma rotated_name_fresh (t : EasyLog) (now : Time) :
  rotated_name t now <> FileName t.
Proof.
  intros H. apply (f_equal String.length) in H.
  unfold rotated_name in H. rewrite !length_append in H.
  simpl in H. lia.
Qed.

(** [_tryWrite] when the open fails. *)
Lemma tryWrite_open_fails (t : EasyLog) (io : IO) (d : list byte) (w : World) :
  open_try_err io = true ->
  _tryWrite t io d w
  = Returns (true, d) (log_call (SysOpen (FileName t) false) w).
Proof. intros H. unfold _tryWrite, OpenFile. by rewrite H. Qed.

(** [_tryWrite] once the file is open and [Stat] has answered. *)
Lemma tryWrite_opened (t : EasyLog) (io : IO) (d : list byte) (w : World) :
  open_try_err io = false -> stat_err io = false ->
  _tryWrite t io d w
  = if add64 (file_size (FileName t) w) (len d) >? MaxFileSize t
    then Returns (false, d) (opened t w)
    else let '(rest, w3) := Copy (FileName t) (copy_try_short io) d (opened t w)
         in Returns (true, rest) w3.
Proof.
  intros Ho Hs. unfold _tryWrite. rewrite Ho, OpenFile_ok, Hs.
  cbn [negb].
  set (w1 := log_call _ (set_dir _ w)).
  assert (Hsz : file_size (FileName t) w1 = file_size (FileName t) w).
  { rewrite !file_size_default. subst w1. cbn [dir log_call set_dir].
    by rewrite lookup_insert_eq. }
  rewrite Hsz.
  assert (Hw : log_call (SysStat (FileName t) (file_size (FileName t) w)) w1
               = opened t w).
  { subst w1. unfold opened, log_call, set_dir. cbn [dir ch calls].
    by rewrite <- app_assoc. }
  by rewrite Hw.
Qed.

(** [_tryWrite] when the append would pass the cap. *)
Lemma tryWrite_refuses (t : EasyLog) (io : IO) (d : list byte) (w : World) :
  open_try_err io = false -> stat_err io = false ->
  file_size (FileName t) w + len d <= max_int64 ->
  file_size (FileName t) w + len d > MaxFileSize t ->
  _tryWrite t io d w = Returns (false, d) (opened t w).
Proof.
  intros Ho Hs Hr Hgt. rewrite tryWrite_opened by done.
  pose proof (file_size_nonneg (FileName t) w). pose proof (len_nonneg d).
  rewrite add64_small by lia.
  by destruct (Z.gtb_spec (file_size (FileName t) w + len d) (MaxFileSize t));
    [|lia].
Qed.

(** [_tryWrite] when the append fits. *)
Lemma tryWrite_appends (t : EasyLog) (io : IO) (d : list byte) (w : World) :
  open_try_err io = false -> stat_err io = false -> copy_try_short io = None ->
  file_size (FileName t) w + len d <= max_int64 ->
  file_size (FileName t) w + len d <= MaxFileSize t ->
  _tryWrite t io d w
  = Returns (true, [])
      {| dir := <[FileName t := default [] (dir w !! FileName t) ++ d]> (dir w);
         ch := ch w;
         calls := calls w ++ [SysOpen (FileName t) true;
                              SysStat (FileName t) (file_size (FileName t) w);
                              SysWrite (FileName t) d] |}.
Proof.
  intros Ho Hs Hc Hr Hle. rewrite tryWrite_opened by done.
  pose proof (file_size_nonneg (FileName t) w). pose proof (len_nonneg d).
  rewrite add64_small by lia.
  destruct (Z.gtb_spec (file_size (FileName t) w + len d) (MaxFileSize t));
    [lia|].
  unfold Copy. rewrite Hc. unfold opened, log_call, set_dir.
  cbn [dir ch calls]. rewrite lookup_insert_eq. cbn [default].
  by rewrite insert_insert_eq, <- app_assoc.
Qed.

(** C3.  With the file opened and of size [c], and no failure of [Stat] or
    of the write: when [c + len(d) > MaxFileSize], [_tryWrite] returns false,
    leaves the buffer and every file's content as they were and makes no
    write call; otherwise it returns true with the payload appended to the
    active file and the buffer drained.  In particular a payload of exactly
    [MaxFileSize] bytes on an empty or absent active file is written. *)
Theorem tryWrite_checks_size_before_writing
    (t : EasyLog) (io : IO) (d : list byte) (w : World) :
  open_try_err io = false -> stat_err io = false -> copy_try_short io = None ->
  let name := FileName t in
  let c := file_size name w in
  let old := default [] (dir w !! name) in
  c + len d <= max_int64 ->
  (c + len d > MaxFileSize t ->
     exists w',
       _tryWrite t io d w = Returns (false, d) w'
       /\ appended name (calls w') = appended name (calls w)
       /\ calls w' = calls w ++ [SysOpen name true; SysStat name c]
       /\ default [] (dir w' !! name) = old
       /\ (forall n, n <> name -> dir w' !! n = dir w !! n))
  /\ (c + len d <= MaxFileSize t ->
     exists w',
       _tryWrite t io d w = Returns (true, []) w'
       /\ dir w' = <[name := old ++ d]> (dir w)
       /\ calls w' = calls w ++ [SysOpen name true; SysStat name c;
                                 SysWrite name d])
  /\ (c = 0 -> len d = MaxFileSize t ->
     exists w',
       _tryWrite t io d w = Returns (true, []) w'
       /\ dir w' !! name = Some d).
Proof.
  intros Ho Hs Hc name c old Hr.
  assert (Hold : c = 0 -> old = []).
  { subst c old. rewrite file_size_default. unfold len.
    destruct (default [] (dir w !! name)); simpl; [done|lia]. }
  split; [|split].
  - intros Hgt. eexists. split; [by apply tryWrite_refuses|].
    unfold opened. cbn [dir ch calls]. fold name.
    split; [|split; [done|split]].
    + assert (Happ : forall a b, appended name (a ++ b)
                = appended name a ++ appended name b).
      { clear. induction a as [|[] a IH]; intros b; simpl; try done.
        destruct (String.eqb name0 name); [|done].
        by rewrite IH, app_assoc. }
      rewrite Happ. simpl. by rewrite app_nil_r.
    + by rewrite lookup_insert_eq.
    + intros n Hn. by rewrite lookup_insert_ne.
  - intros Hle. eexists. split; [by apply tryWrite_appends|done].
  - intros H0 Hlen. eexists.
    split; [apply tryWrite_appends; try done; unfold c, name in *; lia|].
    cbn [dir]. rewrite lookup_insert_eq. fold name old. by rewrite (Hold H0).
Qed.

Lemma tryWrite_checks_size_before_writing_witness :
  exists w',
    _tryWrite default_cfg (no_faults noon) ab empty_world = Returns (true, []) w'
    /\ dir w' = <["log.txt" := ab]> (dir empty_world).
Proof.
  destruct (tryWrite_checks_size_before_writing default_cfg (no_faults noon)
              ab empty_world eq_refl eq_refl eq_refl) as (_ & H & _).
  - vm_compute. discriminate.
  - destruct H as (w' & H1 & H2 & _); [vm_compute; discriminate|].
    exists w'. split; [exact H1 | exact H2].
Defined.

(** C10.  When the open of the active file fails, [_tryWrite] returns true
    with the buffer untouched and nothing written; [_writeFile] returns at
    once, so the only system call is the failed open: no rename, no second
    open, no write, no signal to the sweeper; and the pump then resets its
    buffer, so the payload is gone without any error reported. *)
Theorem open_failure_drops_payload
    (t : EasyLog) (io : IO) (d : list byte) (w : World) :
  open_try_err io = true ->
  let w' := log_call (SysOpen (FileName t) false) w in
  _tryWrite t io d w = Returns (true, d) w'
  /\ _writeFile t io d w = Returns d w'
  /\ dir w' = dir w /\ ch w' = ch w
  /\ calls w' = calls w ++ [SysOpen (FileName t) false]
  /\ (forall s, cfg s = t -> world s = w -> data (pump s) = d ->
        tmC s = true -> (pc (pump s) = AtWaitTick \/ len d > 0) ->
        exists s', step s (ETick io) = Some s'
          /\ data (pump s') = [] /\ world s' = w' /\ Pipe s' = Pipe s).
Proof.
  intros Ho w'.
  assert (Ht : _tryWrite t io d w = Returns (true, d) w')
    by (by apply tryWrite_open_fails).
  assert (Hw : _writeFile t io d w = Returns d w')
    by (unfold _writeFile; by rewrite Ht).
  repeat (split; [done|]).
  intros s Hcfg Hworld Hdata Htick Hpc. unfold step. rewrite Htick.
  assert (Hf : exists s', flush s io true = s' /\ data (pump s') = []
                 /\ world s' = w' /\ Pipe s' = Pipe s).
  { unfold flush. rewrite Hcfg, Hdata, Hworld, Hw. eexists. split; [done|].
    by cbn. }
  assert (Hg : exists s', flush s io false = s' /\ data (pump s') = []
                 /\ world s' = w' /\ Pipe s' = Pipe s).
  { unfold flush. rewrite Hcfg, Hdata, Hworld, Hw. eexists. split; [done|].
    by cbn. }
  destruct Hf as (s1 & <- & Hf), Hg as (s2 & <- & Hg).
  destruct (pc (pump s)) eqn:Epc.
  - destruct Hpc as [Hpc|Hpc]; [done|]. rewrite Hdata.
    destruct (Z.gtb_spec (len d) 0); [|lia]. eauto.
  - eauto.
Qed.

Lemma open_failure_drops_payload_witness :
  _writeFile default_cfg open_fails ab empty_world
  = Returns ab (log_call (SysOpen "log.txt" false) empty_world).
Proof.
  destruct (open_failure_drops_payload default_cfg open_fails ab empty_world
              eq_refl) as (_ & H & _).
  exact H.
Defined.

(** [_rename] when the active file exists and the first attempt succeeds. *)
Lemma rename_succeeds (t : EasyLog) (io : IO) (w : World) (c : list byte) :
  dir w !! FileName t = Some c -> rename_err1 io = false ->
  _rename t io w
  = log_call (SysRename (FileName t) (rotated_name t (now io)) true)
      (set_dir (<[rotated_name t (now io) := c]> (delete (FileName t) (dir w))) w).
Proof. intros Hc He. unfold _rename, Rename. by rewrite Hc, He. Qed.

(** [_mustWrite] when nothing fails. *)
Lemma mustWrite_appends (t : EasyLog) (io : IO) (d : list byte) (w : World) :
  open_must_err io = false -> copy_must_short io = None ->
  _mustWrite t io d w
  = ([], {| dir := <[FileName t := default [] (dir w !! FileName t) ++ d]> (dir w);
            ch := ch w;
            calls := calls w ++ [SysOpen (FileName t) true;
                                 SysWrite (FileName t) d] |}).
Proof.
  intros Ho Hc. unfold _mustWrite. rewrite Ho, OpenFile_ok. cbn [negb].
  unfold Copy. rewrite Hc. unfold log_call, set_dir. cbn [dir ch calls].
  rewrite lookup_insert_eq. cbn [default].
  by rewrite insert_insert_eq, <- app_assoc.
Qed.

(** C4.  When [_tryWrite] refuses a payload and nothing fails, [_writeFile]
    makes these calls in this order: the open and the size query of the
    refused attempt, the rename of the active file to its rotated name, the
    open of a new active file, the write of the whole payload, and the signal
    to the sweeper.  Afterwards the rotated name holds the old content, the
    active file holds exactly the payload, and a signal is queued for the
    sweeper.  Hence a payload longer than [MaxFileSize], which is refused
    whatever the size of the active file, leaves an active file larger than
    the cap. *)
Theorem writeFile_rotates_then_writes
    (t : EasyLog) (io : IO) (d : list byte) (w : World) :
  io_ok io ->
  let name := FileName t in
  let c := file_size name w in
  let old := default [] (dir w !! name) in
  let rot := rotated_name t (now io) in
  c + len d <= max_int64 ->
  c + len d > MaxFileSize t ->
  exists w',
    _tryWrite t io d w = Returns (false, d) (opened t w)
    /\ _writeFile t io d w = Returns [] w'
    /\ calls w' = calls w ++ [SysOpen name true; SysStat name c;
                              SysRename name rot true;
                              SysOpen name true; SysWrite name d; SysNotify]
    /\ dir w' = <[name := d]> (<[rot := old]> (delete name (dir w)))
    /\ dir w' !! name = Some d
    /\ dir w' !! rot = Some old
    /\ (ch w = [] -> ch w' = [1])
    /\ (ch w <> [] -> ch w' = ch w)
    /\ (len d > MaxFileSize t -> file_size name w' > MaxFileSize t).
Proof.
  intros (Ho & Hs & Hc & Hr1 & Hom & Hcm) name c old rot Hrange Hgt.
  assert (Ht : _tryWrite t io d w = Returns (false, d) (opened t w))
    by (by apply tryWrite_refuses).
  pose proof (rotated_name_fresh t (now io)) as Hfresh. fold rot name in Hfresh.
  assert (Hren : _rename t io (opened t w)
            = log_call (SysRename name rot true)
                (set_dir (<[rot := old]> (delete name (dir (opened t w))))
                   (opened t w))).
  { apply rename_succeeds; [|done]. unfold opened. cbn [dir].
    by rewrite lookup_insert_eq. }
  assert (Hdel : delete name (dir (opened t w)) = delete name (dir w)).
  { unfold opened. cbn [dir]. fold name. by rewrite delete_insert_eq. }
  rewrite Hdel in Hren.
  set (w' := notify
         {| dir := <[name := d]> (<[rot := old]> (delete name (dir w)));
            ch := ch w;
            calls := calls w ++ [SysOpen name true; SysStat name c;
                                 SysRename name rot true;
                                 SysOpen name true; SysWrite name d] |}).
  assert (Hw : _writeFile t io d w = Returns [] w').
  { unfold _writeFile. rewrite Ht, Hren.
    rewrite mustWrite_appends by done. fold name. subst w'. f_equal.
    unfold log_call, set_dir, opened. cbn [dir ch calls]. fold name c.
    rewrite lookup_insert_ne by done. rewrite lookup_delete_eq. cbn [default].
    rewrite app_nil_l. f_equal. f_equal. by rewrite <- !app_assoc. }
  exists w'. split; [done|]. split; [done|].
  assert (Hdir : dir w' = <[name := d]> (<[rot := old]> (delete name (dir w)))).
  { subst w'. unfold notify, nofityDelFile, log_call. cbn [dir ch calls].
    by destruct (if len (ch w) =? 0 then chan_send ch_cap 1 (ch w)
                 else Some (ch w)). }
  split.
  { subst w'. unfold notify, nofityDelFile, log_call. cbn [dir ch calls].
    destruct (if len (ch w) =? 0 then chan_send ch_cap 1 (ch w)
              else Some (ch w)); cbn [calls]; by rewrite <- app_assoc. }
  split; [done|]. split; [by rewrite Hdir, lookup_insert_eq|].
  split.
  { rewrite Hdir. rewrite lookup_insert_ne by done.
    by rewrite lookup_insert_eq. }
  split.
  { intros Hch. subst w'. unfold notify, nofityDelFile, log_call.
    cbn [dir ch calls]. by rewrite Hch. }
  split.
  { intros Hch. subst w'. unfold notify, nofityDelFile, log_call.
    cbn [dir ch calls]. destruct (ch w) as [|v r]; [done|].
    unfold len. by cbn. }
  intros Hbig. unfold file_size. by rewrite Hdir, lookup_insert_eq.
Qed.

Lemma writeFile_rotates_then_writes_witness :
  exists w',
    _writeFile mib_cfg (no_faults noon) over_mib empty_world = Returns [] w'
    /\ dir w' !! "log.txt" = Some over_mib
    /\ file_size "log.txt" w' > MaxFileSize mib_cfg.
Proof.
  destruct (writeFile_rotates_then_writes mib_cfg (no_faults noon) over_mib
              empty_world) as (w' & _ & Hw & _ & _ & Hd & _ & _ & _ & Hbig).
  - repeat split.
  - vm_compute. discriminate.
  - vm_compute. reflexivity.
  - exists w'. split; [exact Hw|]. split; [exact Hd|].
    apply Hbig. vm_compute. reflexivity.
Defined.

(** ** The size the writer observes *)

Lemma observed_sizes_app (name : string) (a b : list syscall) :
  observed_sizes name (a ++ b) = observed_sizes name a ++ observed_sizes name b.
Proof.
  induction a as [|[] a IH]; simpl; try done.
  destruct (String.eqb name0 name); [|done]. by rewrite IH.
Qed.

Lemma appended_app (name : string) (a b : list syscall) :
  appended name (a ++ b) = appended name a ++ appended name b.
Proof.
  induction a as [|[] a IH]; simpl; try done.
  destruct (String.eqb name0 name); [|done]. by rewrite IH, app_assoc.
Qed.

(** What [io.Copy] does to the world: some prefix of the payload lands at
    the end of the file. *)
Lemma Copy_world (name : string) (short : option nat) (d : list byte) (w : World) :
  exists written,
    len written <= len d
    /\ snd (Copy name short d w)
       = {| dir := <[name := default [] (dir w !! name) ++ written]> (dir w);
            ch := ch w; calls := calls w ++ [SysWrite name written] |}.
Proof.
  unfold Copy. destruct short as [k|]; eexists; (split; [|reflexivity]).
  - unfold len. rewrite length_take. lia.
  - lia.
Qed.

(** One call of [_writeFile] keeps the active file within the cap when the
    payload is within the cap and the rename does not fail, whatever else
    fails; and the size it observes is the size it found. *)
Lemma writeFile_keeps_cap (t : EasyLog) (io : IO) (d : list byte) (w : World) :
  MaxFileSize t < 2 ^ 62 ->
  file_size (FileName t) w <= MaxFileSize t ->
  len d <= MaxFileSize t -> rename_err1 io = false ->
  let w' := world_of (_writeFile t io d w) in
  file_size (FileName t) w' <= MaxFileSize t
  /\ exists new, calls w' = calls w ++ new
       /\ Forall (fun z => z <= MaxFileSize t) (observed_sizes (FileName t) new).
Proof.
  intros Hmax Hsz Hd Hren. cbn zeta.
  pose proof (file_size_nonneg (FileName t) w) as Hc0.
  pose proof (len_nonneg d) as Hd0.
  unfold _writeFile.
  destruct (open_try_err io) eqn:Ho.
  { rewrite tryWrite_open_fails by done. cbn [world_of]. split.
    - unfold file_size, log_call in *. by cbn [dir].
    - eexists. split; [reflexivity|]. cbn. constructor. }
  destruct (stat_err io) eqn:Hs.
  { unfold _tryWrite. rewrite Ho, OpenFile_ok, Hs. cbn [negb world_of]. split.
    - rewrite file_size_default in Hsz |- *. unfold log_call, set_dir.
      cbn [dir]. rewrite lookup_insert_eq. exact Hsz.
    - eexists. split; [reflexivity|]. cbn. constructor. }
  rewrite tryWrite_opened by done.
  assert (Hopened : default [] (dir (opened t w) !! FileName t)
                    = default [] (dir w !! FileName t)).
  { unfold opened. cbn [dir]. by rewrite lookup_insert_eq. }
  rewrite add64_small by (unfold max_int64; lia).
  destruct (Z.gtb_spec (file_size (FileName t) w + len d) (MaxFileSize t))
    as [Hgt|Hle].
  - (* refused: rename, then the unconditional write *)
    rewrite (rename_succeeds t io (opened t w) (default [] (dir w !! FileName t)))
      by (done || (unfold opened; cbn [dir]; by rewrite lookup_insert_eq)).
    set (w2 := log_call _ _).
    assert (Hw2 : dir w2 !! FileName t = None).
    { subst w2. unfold log_call, set_dir. cbn [dir].
      rewrite lookup_insert_ne by apply rotated_name_fresh.
      apply lookup_delete_eq. }
    assert (Hc2 : calls w2 = calls w ++
              [SysOpen (FileName t) true;
               SysStat (FileName t) (file_size (FileName t) w);
               SysRename (FileName t) (rotated_name t (now io)) true]).
    { subst w2. unfold log_call, set_dir, opened. cbn [calls].
      by rewrite <- app_assoc. }
    unfold _mustWrite. destruct (open_must_err io) eqn:Hom.
    + unfold OpenFile. cbn [negb world_of]. split.
      * unfold file_size, notify, log_call. cbn [dir ch calls].
        destruct (nofityDelFile (ch w2)); cbn [dir]; rewrite Hw2; lia.
      * eexists. split.
        { unfold notify, log_call. cbn [dir ch calls].
          destruct (nofityDelFile (ch w2)); cbn [calls];
            rewrite Hc2, <- !app_assoc; reflexivity. }
        cbn. rewrite String.eqb_refl. by repeat constructor.
    + rewrite OpenFile_ok. cbn [negb].
      destruct (Copy_world (FileName t) (copy_must_short io) d
                  (log_call (SysOpen (FileName t) true)
                     (set_dir (<[FileName t := default [] (dir w2 !! FileName t)]>
                                 (dir w2)) w2)))
        as (written & Hlen & Hcopy).
      destruct (Copy _ _ _ _) as [rest w3]. cbn [snd] in Hcopy. subst w3.
      cbn [world_of]. split.
      * unfold file_size, notify, log_call, set_dir. cbn [dir ch calls].
        destruct (nofityDelFile (ch w2)); cbn [dir];
          rewrite !lookup_insert_eq, Hw2; cbn [default];
          rewrite app_nil_l; lia.
      * eexists. split.
        { unfold notify, log_call, set_dir. cbn [dir ch calls].
          destruct (nofityDelFile (ch w2)); cbn [calls];
            rewrite Hc2, <- !app_assoc; reflexivity. }
        cbn. rewrite String.eqb_refl. by repeat constructor.
  - (* accepted: the write lands on a file that has room for it *)
    destruct (Copy_world (FileName t) (copy_try_short io) d (opened t w))
      as (written & Hlen & Hcopy).
    destruct (Copy _ _ _ _) as [rest w3]. cbn [snd] in Hcopy. subst w3.
    cbn [world_of]. split.
    + unfold file_size at 1. cbn [dir]. rewrite lookup_insert_eq, Hopened.
      rewrite len_app, <- file_size_default. lia.
    + eexists. split.
      { unfold opened. cbn [calls]. rewrite <- app_assoc. reflexivity. }
      cbn. rewrite String.eqb_refl. by repeat constructor.
Qed.

(** C6 (as amended).  Over any run of the writer that starts with the active
    file within the cap, in which every payload handed to [_writeFile] is at
    most [MaxFileSize] bytes long and the rename of a rotation does not fail
    (any other operation may), every size observed by [Stat] at the start of
    an append is at most [MaxFileSize], and so is the size of the active file
    at the end. *)
Theorem observed_size_within_cap
    (t : EasyLog) (cs : list (IO * list byte)) (w : World) :
  MaxFileSize t < 2 ^ 62 ->
  file_size (FileName t) w <= MaxFileSize t ->
  Forall (fun z => z <= MaxFileSize t) (observed_sizes (FileName t) (calls w)) ->
  Forall (fun c => len (snd c) <= MaxFileSize t /\ rename_err1 (fst c) = false) cs ->
  Forall (fun z => z <= MaxFileSize t)
    (observed_sizes (FileName t) (calls (writeFile_seq t cs w)))
  /\ file_size (FileName t) (writeFile_seq t cs w) <= MaxFileSize t.
Proof.
  intros Hmax. revert w.
  induction cs as [|[io d] cs IH]; intros w Hsz Hobs Hcs; simpl; [done|].
  apply Forall_cons in Hcs as [[Hd Hren] Hcs]. simpl in Hd, Hren.
  destruct (writeFile_keeps_cap t io d w Hmax Hsz Hd Hren)
    as (Hsz' & new & Hcalls & Hnew).
  apply IH; [done| |done].
  rewrite Hcalls, observed_sizes_app. by apply Forall_app.
Qed.

Lemma observed_size_within_cap_witness :
  Forall (fun z => z <= MaxFileSize default_cfg)
    (observed_sizes "log.txt"
       (calls (writeFile_seq default_cfg
                 [(no_faults noon, ab); (no_faults noon, cd)] empty_world)))
  /\ file_size "log.txt"
       (writeFile_seq default_cfg
          [(no_faults noon, ab); (no_faults noon, cd)] empty_world)
     <= MaxFileSize default_cfg.
Proof.
  apply (observed_size_within_cap default_cfg
           [(no_faults noon, ab); (no_faults noon, cd)] empty_world).
  - reflexivity.
  - vm_compute. discriminate.
  - constructor.
  - repeat constructor; vm_compute; discriminate.
Defined.

(** C6 as the specification words it fails.  With the cap at 1 MiB, the
    smallest [SetMaxFileSize] accepts, a single [Write] of 1 MiB + 1 bytes is
    refused by [_tryWrite], the empty active file is rotated away and
    [_mustWrite] writes the whole payload; the next append observes an
    active file of 1 MiB + 1 bytes, above the cap.  The same is shown on the
    writer alone and on the whole sink, from [Write] to the pump. *)
Lemma observed_size_counterexample :
  let w := writeFile_seq mib_cfg
             [(no_faults noon, over_mib); (no_faults noon, ab)] empty_world in
  let es := [EWrite over_mib None; ERecv; ETimer; ETick (no_faults noon);
             EWrite ab (Some 0%nat); ERecv; ETimer; ETick (no_faults noon)] in
  MaxFileSize mib_cfg = 1048576
  /\ observed_sizes "log.txt" (calls w) = [0; 1048577]
  /\ (observed_sizes "log.txt" ∘ calls ∘ world <$> run (sys_init mib_cfg ∅) es)
     = Some [0; 1048577]
  /\ ~ Forall (fun z => z <= MaxFileSize mib_cfg)
         (observed_sizes "log.txt" (calls w)).
Proof.
  cbn zeta.
  assert (H : observed_sizes "log.txt"
                (calls (writeFile_seq mib_cfg
                   [(no_faults noon, over_mib); (no_faults noon, ab)]
                   empty_world)) = [0; 1048577])
    by (vm_compute; reflexivity).
  split; [reflexivity|]. split; [exact H|]. split; [vm_compute; reflexivity|].
  rewrite H. intros Hf. apply Forall_cons in Hf as [_ Hf].
  apply Forall_cons in Hf as [Hf _]. vm_compute in Hf. by apply Hf.
Qed.

(** ** The pump *)

(** A flush never fails to return a state: a panic inside [_writeFile] is
    recovered by [do] and the pump starts over. *)
Lemma flush_data (s : Sys) (io : IO) (recompute : bool) :
  data (pump (flush s io recompute)) = []
  /\ world (flush s io recompute)
     = world_of (_writeFile (cfg s) io (data (pump s)) (world s))
  /\ tmC (flush s io recompute) = false
  /\ Pipe (flush s io recompute) = Pipe s
  /\ heap (flush s io recompute) = heap s
  /\ pool (flush s io recompute) = pool s
  /\ cfg (flush s io recompute) = cfg s.
Proof.
  unfold flush.
  destruct (_writeFile (cfg s) io (data (pump s)) (world s)) as [rest w'|w'];
    destruct recompute; by cbn.
Qed.

Lemma writeFile_no_panic (t : EasyLog) (io : IO) (d : list byte) (w : World) :
  stat_err io = false ->
  exists rest w', _writeFile t io d w = Returns rest w'.
Proof.
  intros Hs. unfold _writeFile.
  destruct (open_try_err io) eqn:Ho.
  - rewrite tryWrite_open_fails by done. eauto.
  - rewrite tryWrite_opened by done.
    destruct (add64 _ _ >? _).
    + destruct (_mustWrite t io d _). eauto.
    + destruct (Copy _ _ _ _). eauto.
Qed.

(** C2 (as amended).  When the step of the pump that handles an event of the
    select (a receive, or a tick whose flush does not panic) leaves the
    buffer longer than the cache size, the pump does not flush: it blocks in
    the receive from the ticker of line 254.  There it takes nothing from
    [Pipe], and while no tick is buffered it cannot move at all.  When the
    tick arrives it calls [_writeFile] on the buffer, resets the buffer and
    goes back to the select. *)
Theorem size_flush_waits_for_tick (s s' : Sys) (e : Event) :
  pc (pump s) = AtSelect ->
  match e with
  | ERecv => True
  | ETick io => stat_err io = false
  | _ => False
  end ->
  step s e = Some s' ->
  len (data (pump s')) > maxCacheSize (pump s') ->
  pc (pump s') = AtWaitTick
  /\ (e = ERecv -> world s' = world s)
  /\ step s' ERecv = None
  /\ (tmC s' = false -> forall io, step s' (ETick io) = None)
  /\ (forall io, exists s'',
        step (with_pump s' (world s') true (pump s')) (ETick io) = Some s''
        /\ world s''
           = world_of (_writeFile (cfg s') io (data (pump s')) (world s'))
        /\ data (pump s'') = []
        /\ pc (pump s'') = AtSelect
        /\ tmC s'' = false).
Proof.
  intros Hpc He Hstep Hlen.
  assert (Hwait : pc (pump s') = AtWaitTick /\ (e = ERecv -> world s' = world s)).
  { destruct e; try done; unfold step in Hstep; rewrite Hpc in Hstep.
    - destruct (Pipe s) as [|v rest]; [done|]. simplify_eq. cbn in *.
      split; [|done]. by rewrite (gtb_of_gt _ _ Hlen).
    - split; [|done]. destruct (tmC s); [|done].
      destruct (len (data (pump s)) >? 0).
      + simplify_eq. unfold flush in *.
        destruct (writeFile_no_panic (cfg s) io (data (pump s)) (world s) He)
          as (rest & w' & Hw).
        rewrite Hw in *. cbn in *. by rewrite (gtb_of_gt _ _ Hlen).
      + simplify_eq. cbn in *. by rewrite (gtb_of_gt _ _ Hlen). }
  destruct Hwait as [Hwait Hworld].
  split; [done|]. split; [done|]. split.
  { unfold step. by rewrite Hwait. }
  split.
  { intros Htick io. unfold step. by rewrite Htick. }
  intros io. eexists. split.
  { unfold step. cbn [tmC with_pump pump]. rewrite Hwait. reflexivity. }
  set (s1 := with_pump s' (world s') true (pump s')).
  destruct (flush_data s1 io false) as (Hd & Hw & Ht & _).
  split; [done|]. split; [done|]. split; [|done].
  unfold flush. by destruct (_writeFile _ _ _ _).
Qed.

Lemma size_flush_waits_for_tick_witness :
  pc (pump sys_over_recv) = AtWaitTick
  /\ world sys_over_recv = world sys_over
  /\ step sys_over_recv ERecv = None.
Proof.
  destruct (size_flush_waits_for_tick sys_over sys_over_recv ERecv)
    as (H1 & H2 & H3 & _).
  - reflexivity.
  - exact I.
  - reflexivity.
  - vm_compute. reflexivity.
  - split; [exact H1|]. split; [apply H2; reflexivity | exact H3].
Defined.

(** C2 as the specification words it fails.  The cap is 1 MiB, so is the
    cache size, and no tick is buffered.  After one [Write] of 1 MiB + 1
    bytes and the pump's step that receives it, the buffer holds 1 MiB + 1
    bytes, more than the cache size, yet no system call has been made, and
    neither a flush nor a receive is possible: the pump waits for the
    ticker.  Only once the timer has fired does the flush happen. *)
Lemma size_flush_counterexample :
  let received := run (sys_init mib_cfg ∅) [EWrite over_mib None; ERecv] in
  (len ∘ data ∘ pump <$> received) = Some 1048577
  /\ (maxCacheSize ∘ pump <$> received) = Some 1048576
  /\ (tmC <$> received) = Some false
  /\ (calls ∘ world <$> received) = Some []
  /\ (pc ∘ pump <$> received) = Some AtWaitTick
  /\ (received ≫= fun s => step s (ETick (no_faults noon))) = None
  /\ (received ≫= fun s => step s ERecv) = None
  /\ (observed_sizes "log.txt" ∘ calls ∘ world
        <$> (received ≫= fun s => run s [ETimer; ETick (no_faults noon)]))
     = Some [0].
Proof.
  cbn zeta.
  split; [vm_compute; reflexivity|]. split; [vm_compute; reflexivity|].
  split; [vm_compute; reflexivity|]. split; [vm_compute; reflexivity|].
  split; [vm_compute; reflexivity|]. split; [vm_compute; reflexivity|].
  split; [vm_compute; reflexivity|]. vm_compute; reflexivity.
Qed.

(** ** From [Write] to the file *)

(** A flush in which nothing fails writes the whole buffer, on either path:
    appended in place, or written to the new file after a rotation. *)
Lemma writeFile_appends_all (t : EasyLog) (io : IO) (d : list byte) (w : World) :
  io_ok io ->
  exists w',
    _writeFile t io d w = Returns [] w'
    /\ appended (FileName t) (calls w') = appended (FileName t) (calls w) ++ d.
Proof.
  intros (Ho & Hs & Hc & Hr1 & Hom & Hcm). unfold _writeFile.
  rewrite tryWrite_opened by done.
  destruct (add64 _ _ >? _).
  - rewrite (rename_succeeds t io (opened t w) (default [] (dir w !! FileName t)))
      by (done || (unfold opened; cbn [dir]; by rewrite lookup_insert_eq)).
    rewrite mustWrite_appends by done. eexists. split; [reflexivity|].
    unfold notify, log_call, set_dir, opened. cbn [dir ch calls].
    destruct (nofityDelFile _); cbn [calls]; rewrite !appended_app; cbn;
      rewrite String.eqb_refl; by rewrite !app_nil_r.
  - unfold Copy. rewrite Hc. eexists. split; [reflexivity|].
    unfold log_call, set_dir, opened. cbn [dir ch calls].
    rewrite !appended_app. cbn. rewrite String.eqb_refl.
    by rewrite !app_nil_r.
Qed.

Lemma appended_removes (name : string) (names : list string) : forall w,
  appended name (calls (foldl (fun w n => Remove n w) w names))
  = appended name (calls w).
Proof.
  induction names as [|n names IH]; intros w; simpl; [done|].
  rewrite IH. unfold Remove, log_call. cbn [calls].
  rewrite appended_app. cbn. by rewrite app_nil_r.
Qed.

Lemma queued_insert_other (h : list (list byte)) (b : nat) (c : list byte)
    (l : list nat) :
  b ∉ l ->
  map (fun x => default [] (<[b := c]> h !! x)) l
  = map (fun x => default [] (h !! x)) l.
Proof.
  intros Hb. apply map_ext_in. intros x Hx.
  rewrite list_lookup_insert_ne; [done|].
  intros ->. apply Hb. by apply list_elem_of_In.
Qed.

Lemma queued_app_other (h : list (list byte)) (c : list byte) (l : list nat) :
  Forall (fun b => (b < length h)%nat) l ->
  map (fun x => default [] ((h ++ [c]) !! x)) l
  = map (fun x => default [] (h !! x)) l.
Proof.
  intros Hl. apply map_ext_in. intros x Hx.
  rewrite lookup_app_l; [done|].
  rewrite Forall_forall in Hl. apply Hl. by apply list_elem_of_In.
Qed.

(** One step of the sink keeps the buffers owned once, keeps the file name,
    and, when no operation of a flush fails, moves bytes along the stream
    without changing it: only a [Write] adds bytes, at the end. *)
Lemma step_stream (s s' : Sys) (e : Event) :
  buffers_ok s -> step s e = Some s' -> faultless [e] ->
  buffers_ok s'
  /\ FileName (cfg s') = FileName (cfg s)
  /\ stream s' = stream s ++ concat (payloads [e]).
Proof.
  intros [Hnd Hrange] Hstep Hfl. unfold stream, queued, buffers_ok.
  destruct e as [p pick| | | |io| |m|m]; cbn [payloads concat] in *;
    rewrite ?app_nil_r.
  - (* Write *)
    unfold step, Write in Hstep.
    assert (Hget : exists b h pl, pool_Get pick s = (b, h, pl)
              /\ (b < length h)%nat /\ (b ∉ Pipe s)
              /\ NoDup (Pipe s ++ [b] ++ pl)
              /\ Forall (fun x => (x < length h)%nat) (Pipe s ++ [b] ++ pl)
              /\ map (fun x => default [] (h !! x)) (Pipe s)
                 = map (fun x => default [] (heap s !! x)) (Pipe s)).
    { assert (Hnew : exists b h pl,
                (length (heap s), heap s ++ [[]], pool s) = (b, h, pl)
                /\ (b < length h)%nat /\ (b ∉ Pipe s)
                /\ NoDup (Pipe s ++ [b] ++ pl)
                /\ Forall (fun x => (x < length h)%nat) (Pipe s ++ [b] ++ pl)
                /\ map (fun x => default [] (h !! x)) (Pipe s)
                   = map (fun x => default [] (heap s !! x)) (Pipe s)).
      { eexists _, _, _. split; [reflexivity|].
        apply Forall_app in Hrange as [HrP Hrp].
        assert (Hfresh : forall l, Forall (fun b => (b < length (heap s))%nat) l
                           -> length (heap s) ∉ l).
        { intros l Hl Hin. rewrite Forall_forall in Hl.
          specialize (Hl _ Hin). lia. }
        rewrite length_app. cbn [length]. split; [lia|].
        split; [by apply Hfresh|]. split.
        - cbn [app]. rewrite <- Permutation_middle. constructor; [|done].
          apply Hfresh. by apply Forall_app.
        - split; [|by apply queued_app_other].
          rewrite !Forall_app. repeat split.
          + eapply Forall_impl; [exact HrP|]. simpl. lia.
          + constructor; [lia|constructor].
          + eapply Forall_impl; [exact Hrp|]. simpl. lia. }
      unfold pool_Get. destruct pick as [i|]; [|exact Hnew].
      destruct (pool s !! i) as [b|] eqn:Ei; [|exact Hnew].
      eexists _, _, _. split; [reflexivity|].
      pose proof (delete_Permutation _ _ _ Ei) as Hperm.
      assert (Hin : b ∈ pool s) by (apply list_elem_of_lookup; eauto).
      split.
      { rewrite Forall_forall in Hrange. apply Hrange.
        apply elem_of_app. by right. }
      split.
      { intros HP. apply NoDup_app in Hnd as (_ & Hdisj & _).
        by apply (Hdisj b). }
      split.
      { cbn [app]. by rewrite <- Hperm. }
      split; [|done]. cbn [app]. by rewrite <- Hperm. }
    destruct Hget as (b & h & pl & Hget & Hb & HbP & Hnd' & Hr' & Hq).
    rewrite Hget in Hstep. unfold Buffer_Write in Hstep.
    destruct (len (Pipe s) <? PipeCap (cfg s)); [|done].
    cbn in Hstep. simplify_eq. cbn [cfg world heap pool Pipe pump].
    rewrite (list_lookup_insert_eq h b []) by done. cbn [default app].
    split; [|split; [done|]].
    + split; [by rewrite <- app_assoc|].
      rewrite <- app_assoc. eapply Forall_impl; [exact Hr'|].
      intros x Hx. by rewrite !length_insert.
    + rewrite map_app, concat_app. cbn [map concat].
      rewrite list_lookup_insert_eq by (by rewrite length_insert).
      cbn [default].
      rewrite !queued_insert_other by done. rewrite Hq.
      by rewrite app_nil_r, !app_assoc.
  - (* the pool is emptied *)
    cbn in Hstep. simplify_eq. cbn [cfg world heap pool Pipe pump].
    split; [|done]. rewrite app_nil_r.
    apply NoDup_app in Hnd as (HP & _ & _).
    apply Forall_app in Hrange as [HrP _]. done.
  - (* the ticker fires *)
    cbn in Hstep. by simplify_eq.
  - (* the pump receives *)
    unfold step in Hstep. destruct (pc (pump s)); [|done].
    destruct (Pipe s) as [|v rest] eqn:EP; [done|]. simplify_eq.
    cbn [cfg world heap pool Pipe pump data after_select].
    cbn [app] in Hnd, Hrange.
    apply NoDup_cons in Hnd as [Hv Hnd].
    apply Forall_cons in Hrange as [Hvr Hrange].
    split; [|split; [done|]].
    + split.
      * rewrite <- Permutation_middle. by constructor.
      * rewrite <- Permutation_middle. constructor.
        { by rewrite length_insert. }
        eapply Forall_impl; [exact Hrange|].
        intros x Hx. by rewrite length_insert.
    + rewrite queued_insert_other
        by (intros Hin; apply Hv; apply elem_of_app; by left).
      cbn [map concat]. by rewrite <- !app_assoc.
  - (* the pump takes a tick *)
    destruct Hfl as [Hio _]. unfold step in Hstep.
    destruct (tmC s); [|done].
    assert (Hflush : forall r,
      buffers_ok (flush s io r)
      /\ FileName (cfg (flush s io r)) = FileName (cfg s)
      /\ appended (FileName (cfg (flush s io r))) (calls (world (flush s io r)))
         ++ data (pump (flush s io r))
         ++ concat (map (fun b => default [] (heap (flush s io r) !! b))
                      (Pipe (flush s io r)))
         = appended (FileName (cfg s)) (calls (world s)) ++ data (pump s)
           ++ concat (map (fun b => default [] (heap s !! b)) (Pipe s))).
    { intros r.
      destruct (flush_data s io r) as (Hd & Hw & _ & HP & Hh & Hp & Hc).
      destruct (writeFile_appends_all (cfg s) io (data (pump s)) (world s) Hio)
        as (w' & Hwf & Happ).
      rewrite Hwf in Hw. cbn [world_of] in Hw.
      unfold buffers_ok. rewrite Hd, Hw, HP, Hh, Hp, Hc, Happ.
      split; [done|]. split; [done|]. by rewrite app_nil_l, <- app_assoc. }
    destruct (pc (pump s)).
    + destruct (Z.gtb_spec (len (data (pump s))) 0) as [Hpos|Hzero].
      * simplify_eq. apply Hflush.
      * simplify_eq. cbn [cfg world heap pool Pipe pump data with_pump
                          after_select]. done.
    + simplify_eq. apply Hflush.
  - (* the sweeper *)
    unfold step in Hstep.
    destruct (chan_recv (ch (world s))) as [[v c]|]; [|done].
    destruct (cleanFile (cfg s) (Walk (cfg s) (world s))) as [names|]; [|done].
    simplify_eq. cbn [cfg world heap pool Pipe pump with_pump].
    split; [done|]. split; [done|]. by rewrite appended_removes.
  - cbn in Hstep. by simplify_eq.
  - cbn in Hstep. by simplify_eq.
Qed.

Lemma faultless_app (a b : list Event) :
  faultless (a ++ b) <-> faultless a /\ faultless b.
Proof.
  induction a as [|[] a IH]; simpl; try tauto.
Qed.

Lemma payloads_app (a b : list Event) :
  payloads (a ++ b) = payloads a ++ payloads b.
Proof.
  induction a as [|[] a IH]; simpl; try done. by rewrite IH.
Qed.

Lemma run_app (a b : list Event) : forall s,
  run s (a ++ b) = run s a ≫= fun s1 => run s1 b.
Proof.
  induction a as [|e a IH]; intros s; simpl; [done|].
  destruct (step s e); [apply IH|done].
Qed.

Lemma run_stream (es : list Event) : forall s s',
  buffers_ok s -> run s es = Some s' -> faultless es ->
  buffers_ok s'
  /\ FileName (cfg s') = FileName (cfg s)
  /\ stream s' = stream s ++ concat (payloads es).
Proof.
  induction es as [|e es IH]; intros s s' Hok Hrun Hfl.
  - simpl in *. simplify_eq. by rewrite app_nil_r.
  - simpl in Hrun. destruct (step s e) as [s1|] eqn:Es; [|done].
    change (e :: es) with ([e] ++ es) in Hfl |- *.
    apply faultless_app in Hfl as [Hfe Hfes].
    destruct (step_stream s s1 e Hok Es Hfe) as (Hok1 & Hn1 & Hs1).
    destruct (IH s1 s' Hok1 Hrun Hfes) as (Hok' & Hn' & Hs').
    split; [done|]. split; [congruence|].
    by rewrite Hs', Hs1, payloads_app, concat_app, app_assoc.
Qed.

Lemma sys_init_ok (t : EasyLog) (d : gmap string (list byte)) :
  buffers_ok (sys_init t d) /\ stream (sys_init t d) = [].
Proof. split; [split; cbn; constructor|done]. Qed.

(** From any state the pump can reach its select without a new [Write]. *)
Lemma pump_reaches_select (s : Sys) (io : IO) :
  io_ok io ->
  exists es s1,
    run s es = Some s1 /\ faultless es /\ payloads es = []
    /\ pc (pump s1) = AtSelect /\ Pipe s1 = Pipe s.
Proof.
  intros Hio. destruct (pc (pump s)) eqn:Epc.
  - exists [], s. by cbn.
  - exists [ETimer; ETick io]. eexists. cbn. rewrite Epc.
    split; [reflexivity|]. split; [done|]. split; [done|].
    destruct (flush_data (with_pump s (world s) true (pump s)) io false)
      as (_ & _ & _ & HP & _).
    split; [|done]. unfold flush. by destruct (_writeFile _ _ _ _).
Qed.

(** A tick taken in the select leaves the buffer empty. *)
Lemma tick_empties_buffer (s : Sys) (io : IO) :
  pc (pump s) = AtSelect ->
  exists s1,
    run s [ETimer; ETick io] = Some s1
    /\ data (pump s1) = [] /\ Pipe s1 = Pipe s.
Proof.
  intros Hpc. cbn. rewrite Hpc.
  destruct (Z.gtb_spec (len (data (pump s))) 0) as [Hpos|Hzero].
  - eexists. split; [reflexivity|].
    by destruct (flush_data (with_pump s (world s) true (pump s)) io true)
      as (Hd & _ & _ & HPf & _).
  - eexists. split; [reflexivity|]. cbn. split; [|done].
    unfold len in Hzero. destruct (data (pump s)); [done|].
    simpl in Hzero. lia.
Qed.

(** Every queue can be drained and flushed: the pump receives what is
    queued, and a tick flushes what is accumulated. *)
Lemma pump_drains (io : IO) : io_ok io -> forall n s,
  length (Pipe s) = n ->
  exists es s1,
    run s es = Some s1 /\ faultless es /\ payloads es = []
    /\ Pipe s1 = [] /\ data (pump s1) = [].
Proof.
  intros Hio. induction n as [|n IH]; intros s Hn.
  - destruct (pump_reaches_select s io Hio) as (es & s1 & Hr & Hf & Hp & Hpc & HP).
    assert (HP1 : Pipe s1 = []) by (rewrite HP; by destruct (Pipe s)).
    destruct (tick_empties_buffer s1 io Hpc) as (s2 & Hr2 & Hd2 & HP2).
    exists (es ++ [ETimer; ETick io]), s2.
    rewrite run_app, Hr. cbn [mbind option_bind].
    split; [done|]. rewrite faultless_app, payloads_app, Hp.
    split; [by cbn|]. split; [done|]. split; [congruence|done].
  - destruct (pump_reaches_select s io Hio) as (es & s1 & Hr & Hf & Hp & Hpc & HP).
    destruct (Pipe s1) as [|v rest] eqn:EP.
    { rewrite <- HP in Hn. done. }
    assert (Hrecv : exists s2, step s1 ERecv = Some s2 /\ Pipe s2 = rest).
    { unfold step. rewrite Hpc, EP. eexists. split; [reflexivity|done]. }
    destruct Hrecv as (s2 & Hs2 & HP2).
    destruct (IH s2) as (es2 & s3 & Hr3 & Hf3 & Hp3 & HP3 & Hd3).
    { rewrite HP2. rewrite <- HP in Hn. simpl in Hn. lia. }
    exists (es ++ ERecv :: es2), s3.
    rewrite run_app, Hr. cbn [mbind option_bind]. cbn [run]. rewrite Hs2.
    split; [done|]. rewrite faultless_app, payloads_app, Hp. by cbn.
Qed.

(** C1.  Over any schedule of [Write]s, receives, ticks and sweeps from the
    start of the sink, in which no operation of a flush fails: the bytes
    written to the active file, followed by the accumulation buffer and by
    the queued buffers, are at every moment the concatenation of the payloads
    in the order of their sends on [Pipe]; so once the queue is drained and
    the buffer flushed, the bytes written to the active file are exactly that
    concatenation.  Such a drained state can always be reached without any
    further [Write]. *)
Theorem writes_reach_file_in_order
    (t : EasyLog) (d : gmap string (list byte)) (es : list Event) (s : Sys) :
  run (sys_init t d) es = Some s ->
  faultless es ->
  stream s = concat (payloads es)
  /\ (Pipe s = [] -> data (pump s) = [] ->
      appended (FileName t) (calls (world s)) = concat (payloads es))
  /\ (exists es' s',
        run (sys_init t d) (es ++ es') = Some s'
        /\ faultless es' /\ payloads es' = []
        /\ Pipe s' = [] /\ data (pump s') = []
        /\ appended (FileName t) (calls (world s')) = concat (payloads es)).
Proof.
  intros Hrun Hfl.
  destruct (sys_init_ok t d) as [Hok0 Hs0].
  destruct (run_stream es _ _ Hok0 Hrun Hfl) as (Hok & Hname & Hstream).
  rewrite Hs0, app_nil_l in Hstream. cbn [sys_init cfg] in Hname.
  assert (Hdrained : forall es1 s1, run (sys_init t d) es1 = Some s1 ->
            faultless es1 -> Pipe s1 = [] -> data (pump s1) = [] ->
            appended (FileName t) (calls (world s1)) = concat (payloads es1)).
  { intros es1 s1 Hr1 Hf1 HP1 Hd1.
    destruct (run_stream es1 _ _ Hok0 Hr1 Hf1) as (_ & Hn1 & Hst1).
    rewrite Hs0, app_nil_l in Hst1. cbn [sys_init cfg] in Hn1.
    unfold stream, queued in Hst1.
    rewrite HP1, Hd1, Hn1 in Hst1. cbn in Hst1. by rewrite app_nil_r in Hst1. }
  split; [done|]. split; [by apply Hdrained|].
  destruct (pump_drains (no_faults noon) ltac:(by repeat split)
              (length (Pipe s)) s eq_refl)
    as (es' & s' & Hr' & Hf' & Hp' & HP' & Hd').
  exists es', s'.
  assert (Hrun' : run (sys_init t d) (es ++ es') = Some s')
    by (by rewrite run_app, Hrun).
  split; [done|]. repeat (split; [done|]).
  rewrite (Hdrained (es ++ es') s' Hrun'); [|by apply faultless_app|done|done].
  by rewrite payloads_app, Hp', app_nil_r.
Qed.

Lemma writes_reach_file_in_order_witness :
  appended "log.txt" (calls (world after_three_writes)) = ab ++ cd ++ ab
  /\ dir (world after_three_writes) !! "log.txt" = Some (ab ++ cd ++ ab).
Proof.
  destruct (writes_reach_file_in_order default_cfg ∅ three_writes
              after_three_writes) as (_ & H & _).
  - vm_compute. reflexivity.
  - cbn. repeat split.
  - split; [|vm_compute; reflexivity].
    apply H; vm_compute; reflexivity.
Defined.

(** ** What [Write] returns *)

Lemma step_buffers_ok (s s' : Sys) (e : Event) :
  buffers_ok s -> step s e = Some s' -> buffers_ok s'.
Proof.
  intros Hok Hstep.
  destruct e as [p pick| | | |io| |m|m];
    try (by apply (step_stream s s' _ Hok Hstep)).
  unfold step in Hstep. destruct (tmC s); [|done].
  assert (Hflush : forall r, buffers_ok (flush s io r)).
  { intros r. destruct (flush_data s io r) as (_ & _ & _ & HP & Hh & Hp & _).
    unfold buffers_ok. by rewrite HP, Hh, Hp. }
  destruct (pc (pump s)); [destruct (len (data (pump s)) >? 0)|];
    simplify_eq; done.
Qed.

Lemma run_buffers_ok (es : list Event) : forall s s',
  buffers_ok s -> run s es = Some s' -> buffers_ok s'.
Proof.
  induction es as [|e es IH]; intros s s' Hok Hrun; simpl in Hrun.
  - by simplify_eq.
  - destruct (step s e) as [s1|] eqn:Es; [|done].
    eapply IH; [|done]. by eapply step_buffers_ok.
Qed.

(** C8.  In every state the sink can reach, whatever operations have failed
    on the way: a [Write] that returns, returns the length of its argument
    and a nil error; it returns whenever [Pipe] has room, having queued a
    buffer that holds exactly the argument and touched neither the directory
    nor the pump; with [Pipe] full it blocks.  And a flush, whatever fails
    in it, a panic included, yields the next state of the sink, in which
    [Write] again returns the length of its argument and a nil error. *)
Theorem Write_reports_only_the_copy
    (t : EasyLog) (d : gmap string (list byte)) (es : list Event) (s : Sys)
    (p : list byte) (pick : option nat) :
  run (sys_init t d) es = Some s ->
  (forall r s', Write p pick s = Some (r, s') -> r = (len p, None))
  /\ (len (Pipe s) < PipeCap (cfg s) ->
      exists s' b,
        Write p pick s = Some ((len p, None), s')
        /\ Pipe s' = Pipe s ++ [b] /\ heap s' !! b = Some p
        /\ world s' = world s /\ pump s' = pump s)
  /\ (PipeCap (cfg s) <= len (Pipe s) -> Write p pick s = None)
  /\ (forall io, tmC s = true ->
      exists s',
        step s (ETick io) = Some s'
        /\ forall r s'', Write p pick s' = Some (r, s'') -> r = (len p, None)).
Proof.
  intros Hrun.
  pose proof (run_buffers_ok es _ _ (proj1 (sys_init_ok t d)) Hrun)
    as [Hnd Hrange].
  assert (Hret : forall s0 r s',
            Write p pick s0 = Some (r, s') -> r = (len p, None)).
  { intros s0 r s'. unfold Write, Buffer_Write.
    destruct (pool_Get pick s0) as [[b h] pl].
    destruct (len (Pipe s0) <? PipeCap (cfg s0)); [|done]. by intros [= <- _]. }
  split; [apply Hret|]. split; [|split].
  - intros Hroom. unfold Write, Buffer_Write.
    assert (Hget : exists b h pl, pool_Get pick s = (b, h, pl)
                     /\ (b < length h)%nat).
    { unfold pool_Get.
      assert (Hnew : (length (heap s) < length (heap s ++ [[]]))%nat)
        by (rewrite length_app; simpl; lia).
      destruct pick as [i|]; [|by eexists _, _, _].
      destruct (pool s !! i) as [b|] eqn:Ei; [|by eexists _, _, _].
      eexists _, _, _. split; [done|].
      rewrite Forall_forall in Hrange. apply Hrange.
      apply elem_of_app. right. apply list_elem_of_lookup. eauto. }
    destruct Hget as (b & h & pl & Hget & Hb). rewrite Hget.
    destruct (Z.ltb_spec (len (Pipe s)) (PipeCap (cfg s))); [|lia].
    eexists _, b. split; [reflexivity|]. cbn [Pipe heap world pump].
    split; [done|]. split; [|done].
    rewrite list_lookup_insert_eq by (by rewrite length_insert).
    by rewrite list_lookup_insert_eq by done.
  - intros Hfull. unfold Write, Buffer_Write.
    destruct (pool_Get pick s) as [[b h] pl].
    by destruct (Z.ltb_spec (len (Pipe s)) (PipeCap (cfg s))); [lia|].
  - intros io Htick. unfold step. rewrite Htick.
    destruct (pc (pump s)); [destruct (len (data (pump s)) >? 0)|];
      eexists; (split; [reflexivity|apply Hret]).
Qed.

Lemma Write_reports_only_the_copy_witness :
  exists s' b,
    Write cd None after_failed_flush = Some ((2, None), s')
    /\ Pipe s' = [b] /\ heap s' !! b = Some cd
    /\ world s' = world after_failed_flush.
Proof.
  destruct (Write_reports_only_the_copy default_cfg ∅ failed_flush
              after_failed_flush cd None) as (_ & H & _).
  - vm_compute. reflexivity.
  - destruct H as (s' & b & H1 & H2 & H3 & H4 & _).
    + vm_compute. reflexivity.
    + exists s', b. repeat split; assumption.
Defined.

(** * Further properties of the code *)

(** ** Configuration *)



(** ** More on the sweep *)

Lemma match_here_length (r : list atom) : forall s,
  match_here r s = true -> (length r <= String.length s)%nat.
Proof.
  induction r as [|a r IH]; intros s H; simpl; [lia|].
  destruct s as [|c s]; simpl in H; [done|].
  apply andb_true_iff in H as [_ H]. apply IH in H. simpl. lia.
Qed.

Lemma match_anywhere_length (r : list atom) : forall s,
  match_anywhere r s = true -> (length r <= String.length s)%nat.
Proof.
  induction s as [|c s IH]; simpl; intros H.
  - rewrite orb_false_r in H. by apply match_here_length in H.
  - apply orb_true_iff in H as [H|H].
    + by apply match_here_length in H.
    + apply IH in H. lia.
Qed.

Lemma compile_name_length (base : string) : forall r,
  compile_name base = Some r -> length r = String.length base.
Proof.
  induction base as [|c base IH]; simpl; intros r H; [by simplify_eq|].
  destruct (negb (is_ascii7 c) || is_meta c); [done|].
  destruct (compile_name base) as [r0|]; [|done].
  simplify_eq. simpl. by rewrite (IH r0).
Qed.

(** What the expression matches is at least 15 characters longer than the
    file name. *)
Lemma matched_names_are_longer (base name : string) (r : list atom) :
  compile_expr base = Some r ->
  MatchString r name = Some true ->
  (String.length base + 15 <= String.length name)%nat.
Proof.
  intros Hr. unfold compile_expr in Hr.
  destruct (compile_name base) as [r0|] eqn:E; [|done]. simplify_eq.
  unfold MatchString. destruct (all_ascii7 name); [|done].
  intros [= Hm]. apply match_anywhere_length in Hm.
  rewrite length_app, (compile_name_length base r0 E) in Hm. simpl in Hm. lia.
Qed.

(** X2.  The sweep's expression selects no name that has fewer than 15
    characters more than the file name; in particular it never selects the
    active file. *)
Theorem sweep_never_selects_short_names (base name : string) (r : list atom) :
  compile_expr base = Some r ->
  (String.length name < String.length base + 15)%nat ->
  MatchString r name <> Some true
  /\ MatchString r base <> Some true.
Proof.
  intros Hr Hshort.
  split; intros Hm; apply (matched_names_are_longer base _ r Hr) in Hm; lia.
Qed.

Lemma sweep_never_selects_short_names_witness :
  MatchString (default [] (compile_expr "log.txt")) "log.txt.2024" <> Some true
  /\ MatchString (default [] (compile_expr "log.txt")) "log.txt" <> Some true.
Proof.
  apply (sweep_never_selects_short_names "log.txt" "log.txt.2024").
  - reflexivity.
  - vm_compute. lia.
Defined.

Lemma walk_collect_elems (r : list atom) (visited : list (option FileInfo)) :
  forall acc flist,
  walk_collect r visited acc = Some flist ->
  exists new,
    flist = acc ++ new
    /\ forall n, n ∈ new <->
         exists fi, Some fi ∈ visited /\ fi_Name fi = n
                    /\ fi_IsDir fi = false /\ MatchString r n = Some true.
Proof.
  induction visited as [|[fi|] rest IH]; intros acc flist H; simpl in H.
  - simplify_eq. exists []. rewrite app_nil_r. split; [done|].
    intros n. split; [by intros ?%elem_of_nil|].
    by intros (fi & ?%elem_of_nil & _).
  - destruct (fi_IsDir fi) eqn:Ed.
    + destruct (IH _ _ H) as (new & -> & Hnew). exists new. split; [done|].
      intros n. rewrite Hnew. split.
      * intros (fi' & Hin & Hrest). exists fi'. split; [by right|done].
      * intros (fi' & Hin & Hn & Hd & Hm). exists fi'. split; [|done].
        apply elem_of_cons in Hin as [Heq|Hin]; [|done]. congruence.
    + destruct (MatchString r (fi_Name fi)) as [[|]|] eqn:Em; [| |done].
      * destruct (IH _ _ H) as (new & -> & Hnew).
        exists (fi_Name fi :: new). split; [by rewrite <- app_assoc|].
        intros n. rewrite elem_of_cons, Hnew. split.
        { intros [->|(fi' & Hin & Hrest)].
          - exists fi. split; [by left|done].
          - exists fi'. split; [by right|done]. }
        intros (fi' & Hin & Hn & Hd & Hm).
        apply elem_of_cons in Hin as [Heq|Hin].
        { left. congruence. }
        right. by exists fi'.
      * destruct (IH _ _ H) as (new & -> & Hnew). exists new. split; [done|].
        intros n. rewrite Hnew. split.
        { intros (fi' & Hin & Hrest). exists fi'. split; [by right|done]. }
        intros (fi' & Hin & Hn & Hd & Hm). exists fi'. split; [|done].
        apply elem_of_cons in Hin as [Heq|Hin]; [|done]. congruence.
  - destruct (IH _ _ H) as (new & -> & Hnew). exists new. split; [done|].
    intros n. rewrite Hnew. split.
    + intros (fi' & Hin & Hrest). exists fi'. split; [by right|done].
    + intros (fi' & Hin & Hrest). exists fi'. split; [|done].
      by apply elem_of_cons in Hin as [Heq|Hin].
Qed.

Lemma remove_loop_elems (l : list string) : forall k i n,
  n ∈ fst (remove_loop l i k) -> n ∈ l.
Proof.
  induction k as [|k IH]; intros i n; simpl; [by intros ?%elem_of_nil|].
  destruct (l !! i) as [x|] eqn:E; simpl; [|by intros ?%elem_of_nil].
  destruct (remove_loop l (S i) k) as [rm p] eqn:Er. simpl.
  intros [->|Hin]%elem_of_cons.
  - apply list_elem_of_lookup. eauto.
  - apply (IH (S i)). by rewrite Er.
Qed.

(** X3.  Every name a sweep removes is the name of an entry the walk
    visited, that entry is not a directory, and its name matched the
    expression; the active file is never among them. *)
Theorem sweep_removes_only_matched_files
    (t : EasyLog) (visited : list (option FileInfo)) (names : list string)
    (r : list atom) :
  compile_expr (FileName t) = Some r ->
  cleanFile t visited = Some names ->
  forall n, n ∈ names ->
    n <> FileName t
    /\ exists fi, Some fi ∈ visited /\ fi_Name fi = n
                  /\ fi_IsDir fi = false /\ MatchString r n = Some true.
Proof.
  intros Hr Hc n Hn. unfold cleanFile in Hc. rewrite Hr in Hc.
  destruct (walk_collect r visited []) as [flist|] eqn:Ew; [|done].
  simplify_eq.
  destruct (walk_collect_elems r visited [] flist Ew) as (new & -> & Hnew).
  cbn [app] in *.
  assert (Hin : n ∈ new).
  { unfold cleanFile_remove in Hn.
    destruct (MaxFileCount t <=? 0); [by apply elem_of_nil in Hn|].
    destruct (add64 (len new) 1 <=? MaxFileCount t);
      [by apply elem_of_nil in Hn|].
    apply remove_loop_elems in Hn. by rewrite sort_Slice_perm in Hn. }
  apply Hnew in Hin as (fi & Hfi & Hname & Hd & Hm).
  split; [|by exists fi].
  intros ->. apply (matched_names_are_longer _ _ r Hr) in Hm. lia.
Qed.

Lemma sweep_removes_only_matched_files_witness :
  "log.txt.20240101000000" <> FileName (sweep_cfg 2)
  /\ exists fi,
       Some fi ∈ as_file "log.txt" :: map as_file rotated3
       /\ fi_Name fi = "log.txt.20240101000000" /\ fi_IsDir fi = false
       /\ MatchString (default [] (compile_expr "log.txt"))
            "log.txt.20240101000000" = Some true.
Proof.
  apply (sweep_removes_only_matched_files (sweep_cfg 2)
           (as_file "log.txt" :: map as_file rotated3)
           ["log.txt.20240101000000"; "log.txt.20240102000000"]).
  - reflexivity.
  - vm_compute. reflexivity.
  - apply list_elem_of_In. simpl. left. reflexivity.
Defined.

(** X4.  A sweep is idempotent: run again on the names the first pass kept,
    it removes nothing. *)
Theorem second_sweep_removes_nothing (t : EasyLog) (flist : list string) :
  len flist < max_int64 ->
  cleanFile_remove t (kept_after t flist) = ([], false).
Proof.
  intros Hn. unfold kept_after.
  pose proof (len_nonneg flist) as H0.
  pose proof (sort_Slice_len flist) as Hs.
  destruct (Z.leb_spec (MaxFileCount t) 0) as [HK|HK].
  { by apply cleanFile_remove_disabled. }
  destruct (Z.leb_spec (len flist + 1) (MaxFileCount t)) as [Hle|Hgt].
  - rewrite (cleanFile_remove_within t flist) by done. cbn [fst length].
    rewrite drop_0. apply cleanFile_remove_within; rewrite ?Hs; done.
  - rewrite (cleanFile_remove_beyond t flist) by done. cbn [fst].
    set (m := Z.to_nat (len flist + 1 - MaxFileCount t)).
    assert (Hm : (m <= length (sort_Slice flist))%nat)
      by (unfold len in *; subst m; lia).
    rewrite length_take_le by done.
    assert (Hk : len (drop m (sort_Slice flist)) = MaxFileCount t - 1).
    { unfold len in *. rewrite length_drop. subst m. lia. }
    apply cleanFile_remove_within; rewrite ?Hk; lia.
Qed.

Lemma second_sweep_removes_nothing_witness :
  cleanFile_remove (sweep_cfg 2) (kept_after (sweep_cfg 2) rotated3)
  = ([], false).
Proof.
  apply (second_sweep_removes_nothing (sweep_cfg 2) rotated3).
  vm_compute. reflexivity.
Defined.

(** ** More on the trigger *)

Lemma trigger_run_counts (es : list trigger_step) : forall s s',
  trigger_run s es = Some s' ->
  (tr_passes s' + length (tr_ch s') = tr_passes s + length (tr_ch s) + sends es)%nat.
Proof.
  induction es as [|e es IH]; intros s s' H; simpl in H.
  - simplify_eq. simpl. lia.
  - destruct (trigger_next s e) as [s1|] eqn:E; [|done].
    rewrite (IH s1 s' H). clear IH H. unfold trigger_next in E.
    destruct e, (tr_notifier s), (tr_sweeper s); simplify_eq/=; try lia.
    all: try (unfold chan_send in E;
              destruct (length (tr_ch s) <? ch_cap)%nat; simplify_eq/=;
              rewrite length_app; simpl; lia).
    all: destruct (tr_ch s) as [|v r]; simplify_eq/=; lia.
Qed.

(** X5.  Signals are neither lost nor invented: in every state the trigger
    reaches, the sweep passes started plus the signals still queued equal
    the sends [nofityDelFile] has made; so no sweep pass starts without a
    rotation having asked for it. *)
Theorem sweep_passes_account_for_sends (es : list trigger_step) (s : Trigger) :
  trigger_run trigger_init es = Some s ->
  (tr_passes s + length (tr_ch s) = sends es)%nat
  /\ (tr_passes s <= sends es)%nat.
Proof.
  intros H. apply trigger_run_counts in H. simpl in H. lia.
Qed.

Lemma sweep_passes_account_for_sends_witness :
  (tr_passes (default trigger_init
                (trigger_run trigger_init
                   [TNotifyTest; TNotifySend; TSweeperRecv; TNotifyTest;
                    TNotifySend; TNotifyTest]))
   <= 2)%nat.
Proof.
  apply (sweep_passes_account_for_sends
           [TNotifyTest; TNotifySend; TSweeperRecv; TNotifyTest;
            TNotifySend; TNotifyTest]).
  reflexivity.
Defined.


(** ** More on the File Writer *)

(** X6.  The name [_rename] gives a rotated file, at whatever time, is not
    the name of the active file and is selected by the expression of the
    sweep: every rotated file is one the sweep counts. *)
Theorem rotation_names_are_swept (t : EasyLog) (now : Time) (r : list atom) :
  compile_expr (FileName t) = Some r ->
  rotated_name t now <> FileName t
  /\ String.length (rotated_name t now) = (String.length (FileName t) + 15)%nat
  /\ MatchString r (rotated_name t now) = Some true.
Proof.
  intros Hr. destruct (Format_digits now) as [Hd Hl].
  split; [apply rotated_name_fresh|]. split.
  - unfold rotated_name. rewrite !length_append, Hl. simpl. lia.
  - by apply rotated_names_are_matched.
Qed.

Lemma rotation_names_are_swept_witness :
  MatchString (default [] (compile_expr "log.txt")) (rotated_name default_cfg noon)
  = Some true.
Proof.
  destruct (rotation_names_are_swept default_cfg noon
              (default [] (compile_expr "log.txt")) eq_refl) as (_ & _ & H).
  exact H.
Defined.

(** X7.  [_rename] tries at most twice.  With the active file present: if
    the first attempt succeeds there is one rename call; if it fails and the
    second succeeds the directory is the same as after an immediate success;
    if both fail the directory is left as it was, and nothing is reported.
    With the active file absent both attempts fail. *)
Theorem rename_retries_once (t : EasyLog) (io : IO) (w : World) :
  let name := FileName t in
  let rot := rotated_name t (now io) in
  let w' := _rename t io w in
  ch w' = ch w
  /\ (forall c, dir w !! name = Some c -> rename_err1 io = false ->
        dir w' = <[rot := c]> (delete name (dir w))
        /\ calls w' = calls w ++ [SysRename name rot true])
  /\ (forall c, dir w !! name = Some c ->
        rename_err1 io = true -> rename_err2 io = false ->
        dir w' = <[rot := c]> (delete name (dir w))
        /\ calls w' = calls w ++ [SysRename name rot false;
                                  SysRename name rot true])
  /\ ((dir w !! name = None \/ (rename_err1 io = true /\ rename_err2 io = true)) ->
        dir w' = dir w
        /\ calls w' = calls w ++ [SysRename name rot false;
                                  SysRename name rot false]).
Proof.
  cbn zeta. unfold _rename, Rename.
  destruct (dir w !! FileName t) as [c|] eqn:Ec.
  - destruct (rename_err1 io) eqn:E1; cbn [dir log_call set_dir calls ch].
    + rewrite Ec. destruct (rename_err2 io) eqn:E2;
        cbn [dir log_call set_dir calls ch snd]; rewrite <- ?app_assoc;
        repeat split; try done; try (intros; simplify_eq; done);
        try match goal with
            | H : _ \/ _ |- _ => by destruct H as [?|[? ?]]
            end.
    + repeat split; try done; try (intros; simplify_eq; done);
        try match goal with
            | H : _ \/ _ |- _ => by destruct H as [?|[? ?]]
            end.
  - cbn [dir log_call set_dir calls ch]. rewrite Ec.
    cbn [dir log_call set_dir calls ch snd]. rewrite <- ?app_assoc.
    repeat split; done.
Qed.

(** [_writeFile] once [_tryWrite] has refused. *)
Lemma writeFile_refused (t : EasyLog) (io : IO) (d : list byte) (w : World) :
  open_try_err io = false -> stat_err io = false ->
  file_size (FileName t) w + len d <= max_int64 ->
  file_size (FileName t) w + len d > MaxFileSize t ->
  _writeFile t io d w
  = let '(rest, w3) := _mustWrite t io d (_rename t io (opened t w)) in
    Returns rest (notify w3).
Proof.
  intros Ho Hs Hr Hgt. unfold _writeFile. by rewrite tryWrite_refuses.
Qed.

Lemma opened_lookup (t : EasyLog) (w : World) :
  dir (opened t w) !! FileName t = Some (default [] (dir w !! FileName t))
  /\ delete (FileName t) (dir (opened t w)) = delete (FileName t) (dir w).
Proof.
  unfold opened. cbn [dir].
  by rewrite lookup_insert_eq, delete_insert_eq.
Qed.

Lemma notify_world (w : World) :
  dir (notify w) = dir w
  /\ calls (notify w) = calls w ++ [SysNotify]
  /\ ch (notify w) = (if len (ch w) =? 0 then [1] else ch w).
Proof.
  unfold notify, nofityDelFile, log_call. cbn [dir ch calls].
  destruct (ch w) as [|v r]; by cbn.
Qed.

(** The world after a rotation in which nothing fails. *)
Lemma writeFile_rotated_world
    (t : EasyLog) (io : IO) (d : list byte) (w : World) :
  io_ok io ->
  file_size (FileName t) w + len d <= max_int64 ->
  file_size (FileName t) w + len d > MaxFileSize t ->
  exists w',
    _writeFile t io d w = Returns [] w'
    /\ dir w' = <[FileName t := d]>
                  (<[rotated_name t (now io) := default [] (dir w !! FileName t)]>
                     (delete (FileName t) (dir w)))
    /\ ch w' = (if len (ch w) =? 0 then [1] else ch w).
Proof.
  intros (Ho & Hs & Hc & Hr1 & Hom & Hcm) Hrange Hgt.
  rewrite writeFile_refused by done.
  destruct (opened_lookup t w) as [Hl Hdel].
  rewrite (rename_succeeds t io (opened t w) _ Hl Hr1).
  rewrite mustWrite_appends by done. eexists. split; [reflexivity|].
  destruct (notify_world
    {| dir := <[FileName t := default [] (dir (log_call
                 (SysRename (FileName t) (rotated_name t (now io)) true)
                 (set_dir (<[rotated_name t (now io) :=
                             default [] (dir w !! FileName t)]>
                            (delete (FileName t) (dir (opened t w))))
                    (opened t w))) !! FileName t) ++ d]>
              (dir (log_call
                 (SysRename (FileName t) (rotated_name t (now io)) true)
                 (set_dir (<[rotated_name t (now io) :=
                             default [] (dir w !! FileName t)]>
                            (delete (FileName t) (dir (opened t w))))
                    (opened t w))));
       ch := ch (log_call
                 (SysRename (FileName t) (rotated_name t (now io)) true)
                 (set_dir (<[rotated_name t (now io) :=
                             default [] (dir w !! FileName t)]>
                            (delete (FileName t) (dir (opened t w))))
                    (opened t w)));
       calls := calls (log_call
                 (SysRename (FileName t) (rotated_name t (now io)) true)
                 (set_dir (<[rotated_name t (now io) :=
                             default [] (dir w !! FileName t)]>
                            (delete (FileName t) (dir (opened t w))))
                    (opened t w)))
                ++ [SysOpen (FileName t) true; SysWrite (FileName t) d] |})
    as (Hd & _ & Hch).
  rewrite Hd, Hch. cbn [dir ch log_call set_dir]. rewrite Hdel.
  rewrite lookup_insert_ne by apply rotated_name_fresh.
  rewrite lookup_delete_eq. cbn [default app]. split; [done|].
  unfold opened. by cbn [ch].
Qed.

Lemma rename_retries_once_witness :
  dir (_rename default_cfg rename_fails_once world_ab)
  = <[rotated_name default_cfg noon := ab]> (delete "log.txt" (dir world_ab)).
Proof.
  destruct (rename_retries_once default_cfg rename_fails_once world_ab)
    as (_ & _ & H & _).
  destruct (H ab) as [Hd _]; [reflexivity .. | exact Hd].
Defined.

(** X8.  Two rotations within the same second give the same rotated name:
    the second rename replaces the file the first one made.  After two
    refused payloads [d1] and [d2] flushed with the same clock reading, the
    rotated name holds [d1], the active file holds [d2], and the content
    rotated first is in neither. *)
Theorem same_second_rotation_overwrites
    (t : EasyLog) (io1 io2 : IO) (d1 d2 : list byte) (w : World) :
  io_ok io1 -> io_ok io2 -> now io1 = now io2 ->
  file_size (FileName t) w + len d1 <= max_int64 ->
  file_size (FileName t) w + len d1 > MaxFileSize t ->
  len d1 + len d2 <= max_int64 ->
  len d1 + len d2 > MaxFileSize t ->
  let w2 := writeFile_seq t [(io1, d1); (io2, d2)] w in
  dir w2 = <[FileName t := d2]>
             (<[rotated_name t (now io1) := d1]> (delete (FileName t) (dir w)))
  /\ dir w2 !! rotated_name t (now io1) = Some d1
  /\ dir w2 !! FileName t = Some d2.
Proof.
  intros Hio1 Hio2 Hnow Hr1 Hg1 Hr2 Hg2. cbn zeta. cbn [writeFile_seq].
  destruct (writeFile_rotated_world t io1 d1 w Hio1 Hr1 Hg1)
    as (w1 & Hw1 & Hd1 & _).
  rewrite Hw1. cbn [world_of].
  assert (Hsz : file_size (FileName t) w1 = len d1).
  { unfold file_size. by rewrite Hd1, lookup_insert_eq. }
  destruct (writeFile_rotated_world t io2 d2 w1 Hio2) as (w2 & Hw2 & Hd2 & _);
    [by rewrite Hsz .. |].
  rewrite Hw2. cbn [world_of].
  pose proof (rotated_name_fresh t (now io1)) as Hfresh.
  assert (Hdir : dir w2 = <[FileName t := d2]>
             (<[rotated_name t (now io1) := d1]> (delete (FileName t) (dir w)))).
  { rewrite Hd2, Hd1, <- Hnow. rewrite lookup_insert_eq. cbn [default].
    apply map_eq. intros i.
    destruct (decide (i = FileName t)) as [->|Hi].
    { by rewrite !lookup_insert_eq. }
    rewrite !(lookup_insert_ne _ (FileName t)) by done.
    destruct (decide (i = rotated_name t (now io1))) as [->|Hi'].
    { by rewrite !lookup_insert_eq. }
    rewrite !(lookup_insert_ne _ (rotated_name t (now io1))) by done.
    rewrite !lookup_delete_ne by done.
    rewrite lookup_insert_ne by done.
    rewrite lookup_insert_ne by done. by rewrite lookup_delete_ne. }
  split; [done|]. rewrite Hdir. split.
  - rewrite lookup_insert_ne by done. by rewrite lookup_insert_eq.
  - by rewrite lookup_insert_eq.
Qed.

Lemma same_second_rotation_overwrites_witness :
  dir (writeFile_seq mib_cfg [(no_faults noon, over_mib); (no_faults noon, over_mib)]
         world_ab) !! rotated_name mib_cfg noon
  = Some over_mib.
Proof.
  destruct (same_second_rotation_overwrites mib_cfg (no_faults noon)
              (no_faults noon) over_mib over_mib world_ab) as (_ & H & _).
  - repeat split.
  - repeat split.
  - reflexivity.
  - vm_compute. discriminate.
  - vm_compute. reflexivity.
  - vm_compute. discriminate.
  - vm_compute. reflexivity.
  - exact H.
Defined.

(** [_rename] when both attempts fail. *)
Lemma rename_gives_up (t : EasyLog) (io : IO) (w : World) :
  rename_err1 io = true -> rename_err2 io = true ->
  dir (_rename t io w) = dir w /\ ch (_rename t io w) = ch w.
Proof.
  intros He1 He2. unfold _rename, Rename.
  destruct (dir w !! FileName t) as [c|] eqn:Ec.
  - rewrite He1. cbn [dir log_call]. by rewrite Ec, He2.
  - cbn [dir log_call]. by rewrite Ec.
Qed.

(** X9.  When [_tryWrite] refuses and both attempts of the rename fail,
    [_mustWrite] still appends: the payload lands at the end of the old
    active file, which is then larger than the cap, and the sweeper is
    signalled although no file was rotated. *)
Theorem failed_rename_overflows_active_file
    (t : EasyLog) (io : IO) (d : list byte) (w : World) :
  open_try_err io = false -> stat_err io = false ->
  rename_err1 io = true -> rename_err2 io = true ->
  open_must_err io = false -> copy_must_short io = None ->
  file_size (FileName t) w + len d <= max_int64 ->
  file_size (FileName t) w + len d > MaxFileSize t ->
  exists w',
    _writeFile t io d w = Returns [] w'
    /\ dir w' = <[FileName t := default [] (dir w !! FileName t) ++ d]> (dir w)
    /\ file_size (FileName t) w' = file_size (FileName t) w + len d
    /\ file_size (FileName t) w' > MaxFileSize t
    /\ ch w' = (if len (ch w) =? 0 then [1] else ch w).
Proof.
  intros Ho Hs He1 He2 Hom Hcm Hrange Hgt.
  rewrite writeFile_refused by done.
  destruct (opened_lookup t w) as [Hl Hdel].
  destruct (rename_gives_up t io (opened t w) He1 He2) as [Hdir Hch].
  rewrite mustWrite_appends by done. eexists. split; [reflexivity|].
  set (w3 := {| dir := _; ch := _; calls := _ |}).
  destruct (notify_world w3) as (Hd & _ & Hc). subst w3. cbn [dir ch] in Hd, Hc.
  assert (Hdir' : dir (notify {|
      dir := <[FileName t := default [] (dir (_rename t io (opened t w))
                                          !! FileName t) ++ d]>
               (dir (_rename t io (opened t w)));
      ch := ch (_rename t io (opened t w));
      calls := calls (_rename t io (opened t w))
               ++ [SysOpen (FileName t) true; SysWrite (FileName t) d] |})
    = <[FileName t := default [] (dir w !! FileName t) ++ d]> (dir w)).
  { rewrite Hd, Hdir, Hl. cbn [default]. unfold opened. cbn [dir].
    by rewrite insert_insert_eq. }
  split; [done|].
  assert (Hsz : forall w', dir w' = <[FileName t :=
                   default [] (dir w !! FileName t) ++ d]> (dir w) ->
                 file_size (FileName t) w' = file_size (FileName t) w + len d).
  { intros w' Hw'. unfold file_size at 1. rewrite Hw', lookup_insert_eq.
    by rewrite len_app, <- file_size_default. }
  split; [by apply Hsz|]. split; [rewrite (Hsz _ Hdir'); lia|].
  rewrite Hc, Hch. unfold opened. by cbn [ch].
Qed.

Lemma failed_rename_overflows_active_file_witness :
  exists w',
    _writeFile mib_cfg rename_fails over_mib world_ab = Returns [] w'
    /\ file_size "log.txt" w' > MaxFileSize mib_cfg.
Proof.
  destruct (failed_rename_overflows_active_file mib_cfg rename_fails over_mib
              world_ab eq_refl eq_refl eq_refl eq_refl eq_refl eq_refl)
    as (w' & H1 & _ & _ & H2 & _).
  - vm_compute. discriminate.
  - vm_compute. reflexivity.
  - exists w'. split; [exact H1 | exact H2].
Defined.

Lemma OpenFile_frame (name n : string) (err : bool) (w : World) :
  n <> name -> dir (snd (OpenFile name err w)) !! n = dir w !! n.
Proof.
  intros Hn. unfold OpenFile. destruct err; [done|].
  destruct (dir w !! name); cbn [snd dir log_call set_dir]; [done|].
  by rewrite lookup_insert_ne.
Qed.

Lemma Copy_frame (name n : string) (short : option nat) (d : list byte)
    (w : World) :
  n <> name -> dir (snd (Copy name short d w)) !! n = dir w !! n.
Proof.
  intros Hn. unfold Copy. cbn [snd dir log_call set_dir].
  by rewrite lookup_insert_ne.
Qed.

Lemma Rename_frame (old new n : string) (err : bool) (w : World) :
  n <> old -> n <> new -> dir (snd (Rename old new err w)) !! n = dir w !! n.
Proof.
  intros Ho Hn. unfold Rename. destruct (dir w !! old); [|done].
  destruct err; cbn [snd dir log_call set_dir]; [done|].
  rewrite lookup_insert_ne by done. by rewrite lookup_delete_ne.
Qed.

Lemma rename_frame (t : EasyLog) (io : IO) (w : World) (n : string) :
  n <> FileName t -> n <> rotated_name t (now io) ->
  dir (_rename t io w) !! n = dir w !! n.
Proof.
  intros Hn Hr. unfold _rename.
  pose proof (Rename_frame (FileName t) (rotated_name t (now io)) n
                (rename_err1 io) w Hn Hr) as H1.
  destruct (Rename _ _ (rename_err1 io) w) as [ok w1]. cbn [snd] in H1.
  destruct ok; [done|].
  by rewrite (Rename_frame _ _ n (rename_err2 io) w1 Hn Hr).
Qed.

Lemma mustWrite_frame (t : EasyLog) (io : IO) (d : list byte) (w : World)
    (n : string) :
  n <> FileName t -> dir (snd (_mustWrite t io d w)) !! n = dir w !! n.
Proof.
  intros Hn. unfold _mustWrite.
  pose proof (OpenFile_frame (FileName t) n (open_must_err io) w Hn) as H1.
  destruct (OpenFile _ _ w) as [ok w1]. cbn [snd] in H1.
  destruct ok; cbn [negb]; [|done].
  by rewrite Copy_frame.
Qed.

Lemma tryWrite_frame (t : EasyLog) (io : IO) (d : list byte) (w : World)
    (n : string) :
  n <> FileName t -> dir (world_of (_tryWrite t io d w)) !! n = dir w !! n.
Proof.
  intros Hn. unfold _tryWrite.
  pose proof (OpenFile_frame (FileName t) n (open_try_err io) w Hn) as H1.
  destruct (OpenFile _ _ w) as [ok w1]. cbn [snd] in H1.
  destruct ok; cbn [negb]; [|done].
  destruct (stat_err io); [done|].
  destruct (add64 _ _ >? _); [done|].
  pose proof (Copy_frame (FileName t) n (copy_try_short io) d
                (log_call (SysStat (FileName t) (file_size (FileName t) w1)) w1)
                Hn) as H2.
  destruct (Copy _ _ _ _) as [rest w3]. cbn [snd world_of] in *.
  by rewrite H2.
Qed.

(** X10.  Whatever fails or succeeds, one call of [_writeFile] changes no
    entry of the directory other than the active file and the rotated name
    of that moment: every other file, older rotated files included, is left
    as it was. *)
Theorem writeFile_touches_two_names
    (t : EasyLog) (io : IO) (d : list byte) (w : World) (n : string) :
  n <> FileName t -> n <> rotated_name t (now io) ->
  dir (world_of (_writeFile t io d w)) !! n = dir w !! n.
Proof.
  intros Hn Hr. unfold _writeFile.
  pose proof (tryWrite_frame t io d w n Hn) as H1.
  destruct (_tryWrite t io d w) as [[[|] rest] w1|w1]; cbn [world_of] in *;
    [done| |done].
  pose proof (mustWrite_frame t io rest (_rename t io w1) n Hn) as H2.
  destruct (_mustWrite t io rest (_rename t io w1)) as [rest' w3].
  cbn [snd world_of] in *.
  destruct (notify_world w3) as (Hd & _). rewrite Hd, H2.
  by rewrite rename_frame.
Qed.

Lemma writeFile_touches_two_names_witness :
  dir (world_of (_writeFile mib_cfg (no_faults noon) over_mib
                   {| dir := {["other.txt" := cd]}; ch := []; calls := [] |}))
    !! "other.txt"
  = Some cd.
Proof.
  rewrite (writeFile_touches_two_names mib_cfg (no_faults noon) over_mib
             {| dir := {["other.txt" := cd]}; ch := []; calls := [] |}
             "other.txt").
  - reflexivity.
  - vm_compute. discriminate.
  - vm_compute. discriminate.
Defined.

(** X11.  A write that stops short in [_tryWrite] is not retried: the first
    [k] bytes of the payload are appended, the call still reports success,
    there is no rotation and no signal, and the bytes left in the buffer are
    the rest of the payload, which the pump then discards. *)
Theorem short_write_keeps_prefix
    (t : EasyLog) (io : IO) (d : list byte) (w : World) (k : nat) :
  open_try_err io = false -> stat_err io = false ->
  copy_try_short io = Some k ->
  file_size (FileName t) w + len d <= max_int64 ->
  file_size (FileName t) w + len d <= MaxFileSize t ->
  exists w',
    _writeFile t io d w = Returns (drop k d) w'
    /\ dir w' = <[FileName t := default [] (dir w !! FileName t) ++ take k d]> (dir w)
    /\ ch w' = ch w
    /\ calls w' = calls w ++ [SysOpen (FileName t) true;
                              SysStat (FileName t) (file_size (FileName t) w);
                              SysWrite (FileName t) (take k d)].
Proof.
  intros Ho Hs Hc Hrange Hle. unfold _writeFile.
  rewrite tryWrite_opened by done.
  pose proof (file_size_nonneg (FileName t) w). pose proof (len_nonneg d).
  rewrite add64_small by lia.
  destruct (Z.gtb_spec (file_size (FileName t) w + len d) (MaxFileSize t));
    [lia|].
  unfold Copy. rewrite Hc. eexists. split; [reflexivity|].
  unfold opened, log_call, set_dir. cbn [dir ch calls].
  rewrite lookup_insert_eq. cbn [default].
  by rewrite insert_insert_eq, <- app_assoc.
Qed.

Lemma short_write_keeps_prefix_witness :
  exists w',
    _writeFile default_cfg short_write cd world_ab = Returns [Byte.x64] w'
    /\ dir w' = <["log.txt" := ab ++ [Byte.x63]]> (dir world_ab).
Proof.
  destruct (short_write_keeps_prefix default_cfg short_write cd world_ab 1
              eq_refl eq_refl eq_refl) as (w' & H1 & H2 & _).
  - vm_compute. discriminate.
  - vm_compute. discriminate.
  - exists w'. split; [exact H1 | exact H2].
Defined.

(** X12.  When [_tryWrite] refuses, the rename succeeds and the open of
    [_mustWrite] then fails, the payload is written nowhere: the old content
    sits under the rotated name, no active file exists, the buffer is
    untouched, and the sweeper is signalled all the same. *)
Theorem failed_reopen_drops_payload
    (t : EasyLog) (io : IO) (d : list byte) (w : World) :
  open_try_err io = false -> stat_err io = false ->
  rename_err1 io = false -> open_must_err io = true ->
  file_size (FileName t) w + len d <= max_int64 ->
  file_size (FileName t) w + len d > MaxFileSize t ->
  exists w',
    _writeFile t io d w = Returns d w'
    /\ dir w' = <[rotated_name t (now io) := default [] (dir w !! FileName t)]>
                  (delete (FileName t) (dir w))
    /\ dir w' !! FileName t = None
    /\ appended (FileName t) (calls w') = appended (FileName t) (calls w)
    /\ ch w' = (if len (ch w) =? 0 then [1] else ch w).
Proof.
  intros Ho Hs Hr1 Hom Hrange Hgt.
  rewrite writeFile_refused by done.
  destruct (opened_lookup t w) as [Hl Hdel].
  rewrite (rename_succeeds t io (opened t w) _ Hl Hr1).
  unfold _mustWrite, OpenFile. rewrite Hom. cbn [negb].
  eexists. split; [reflexivity|].
  set (w3 := log_call (SysOpen _ false) _).
  destruct (notify_world w3) as (Hd & Hcalls & Hch).
  rewrite Hd, Hcalls, Hch. subst w3.
  unfold log_call, set_dir. cbn [dir ch calls]. rewrite Hdel.
  split; [done|]. split.
  { rewrite lookup_insert_ne by apply rotated_name_fresh.
    apply lookup_delete_eq. }
  split.
  { unfold opened. cbn [calls]. rewrite !appended_app. cbn.
    by rewrite !app_nil_r. }
  unfold opened. by cbn [ch].
Qed.

Lemma failed_reopen_drops_payload_witness :
  exists w',
    _writeFile mib_cfg reopen_fails over_mib world_ab = Returns over_mib w'
    /\ dir w' !! "log.txt" = None.
Proof.
  destruct (failed_reopen_drops_payload mib_cfg reopen_fails over_mib world_ab
              eq_refl eq_refl eq_refl eq_refl) as (w' & H1 & _ & H2 & _).
  - vm_compute. discriminate.
  - vm_compute. reflexivity.
  - exists w'. split; [exact H1 | exact H2].
Defined.

(** ** More on the pump and the sink *)

(** X13.  When [Stat] fails during a flush, the nil [FileInfo] makes
    [_tryWrite] panic; [do] recovers and the pump starts over with an empty
    buffer and a new ticker.  The accumulated bytes are written nowhere and
    are gone, the queued buffers are untouched, and the failed attempt has
    still created the active file if it was absent. *)
Theorem stat_failure_loses_the_buffer (s : Sys) (io : IO) :
  tmC s = true ->
  open_try_err io = false -> stat_err io = true ->
  (pc (pump s) = AtWaitTick \/ len (data (pump s)) > 0) ->
  let name := FileName (cfg s) in
  exists s',
    step s (ETick io) = Some s'
    /\ pump s' = pump_start (cfg s)
    /\ tmC s' = false
    /\ Pipe s' = Pipe s /\ heap s' = heap s /\ pool s' = pool s
    /\ appended name (calls (world s')) = appended name (calls (world s))
    /\ dir (world s')
       = <[name := default [] (dir (world s) !! name)]> (dir (world s))
    /\ stream s' = appended name (calls (world s)) ++ queued s.
Proof.
  intros Htick Ho Hs Hpc. cbn zeta.
  assert (Hw : _writeFile (cfg s) io (data (pump s)) (world s)
               = Panics (log_call (SysOpen (FileName (cfg s)) true)
                           (set_dir (<[FileName (cfg s) :=
                              default [] (dir (world s) !! FileName (cfg s))]>
                              (dir (world s))) (world s)))).
  { unfold _writeFile, _tryWrite. by rewrite Ho, OpenFile_ok, Hs. }
  assert (Hf : forall r, exists s', flush s io r = s'
      /\ pump s' = pump_start (cfg s) /\ tmC s' = false
      /\ Pipe s' = Pipe s /\ heap s' = heap s /\ pool s' = pool s
      /\ appended (FileName (cfg s)) (calls (world s'))
         = appended (FileName (cfg s)) (calls (world s))
      /\ dir (world s')
         = <[FileName (cfg s) :=
               default [] (dir (world s) !! FileName (cfg s))]> (dir (world s))
      /\ stream s'
         = appended (FileName (cfg s)) (calls (world s)) ++ queued s).
  { intros r. eexists. split; [reflexivity|]. unfold flush. rewrite Hw.
    unfold stream, queued.
    cbn [pump tmC Pipe heap pool world cfg with_pump log_call set_dir calls dir
         pump_start data].
    rewrite appended_app. cbn. by rewrite !app_nil_r. }
  unfold step. rewrite Htick.
  destruct (pc (pump s)) eqn:Epc.
  - destruct Hpc as [Hpc|Hpc]; [done|]. rewrite (gtb_of_gt _ _ Hpc).
    destruct (Hf true) as (s' & <- & H). eauto.
  - destruct (Hf false) as (s' & <- & H). eauto.
Qed.

Lemma stat_failure_loses_the_buffer_witness :
  exists s',
    step sys_ab_ticked (ETick stat_fails) = Some s'
    /\ pump s' = pump_start default_cfg
    /\ appended "log.txt" (calls (world s')) = [].
Proof.
  destruct (stat_failure_loses_the_buffer sys_ab_ticked stat_fails)
    as (s' & H1 & H2 & _ & _ & _ & _ & H3 & _).
  - vm_compute. reflexivity.
  - reflexivity.
  - reflexivity.
  - right. vm_compute. reflexivity.
  - exists s'. split; [exact H1|]. split; [exact H2 | exact H3].
Defined.

Lemma step_pipe_bound (s s' : Sys) (e : Event) :
  step s e = Some s' ->
  len (Pipe s) <= PipeCap (cfg s) ->
  len (Pipe s') <= PipeCap (cfg s') /\ PipeCap (cfg s') = PipeCap (cfg s).
Proof.
  intros Hstep Hb. unfold step in Hstep.
  destruct e as [p pick| | | |io| |m|m].
  - unfold Write in Hstep. destruct (pool_Get pick s) as [[b h] pl].
    unfold Buffer_Write in Hstep.
    destruct (Z.ltb_spec (len (Pipe s)) (PipeCap (cfg s))); [|done].
    cbn in Hstep. simplify_eq. cbn [Pipe cfg]. rewrite len_app.
    unfold len at 2. simpl. lia.
  - by simplify_eq.
  - by simplify_eq.
  - destruct (pc (pump s)); [|done]. destruct (Pipe s) as [|v rest] eqn:EP;
      [done|]. simplify_eq. cbn [Pipe cfg]. unfold len in *. simpl in Hb. lia.
  - destruct (tmC s); [|done].
    assert (Hf : forall r, Pipe (flush s io r) = Pipe s
                           /\ cfg (flush s io r) = cfg s).
    { intros r. by destruct (flush_data s io r) as (_ & _ & _ & HP & _ & _ & Hc). }
    destruct (pc (pump s)); [destruct (len (data (pump s)) >? 0)|];
      simplify_eq; try (destruct (Hf true) as [-> ->]; done);
      try (destruct (Hf false) as [-> ->]; done). done.
  - destruct (chan_recv _) as [[v c]|]; [|done].
    destruct (cleanFile _ _); [|done]. by simplify_eq.
  - by simplify_eq.
  - by simplify_eq.
Qed.

(** X14.  The backlog is bounded: in every state the sink reaches, [Pipe]
    holds at most as many buffers as its capacity, and no setter changes
    that capacity. *)
Theorem backlog_is_bounded
    (t : EasyLog) (d : gmap string (list byte)) (es : list Event) (s : Sys) :
  0 <= PipeCap t ->
  run (sys_init t d) es = Some s ->
  len (Pipe s) <= PipeCap (cfg s) /\ PipeCap (cfg s) = PipeCap t.
Proof.
  intros Hcap Hrun.
  assert (H : forall es s0 s1, run s0 es = Some s1 ->
            len (Pipe s0) <= PipeCap (cfg s0) ->
            len (Pipe s1) <= PipeCap (cfg s1)
            /\ PipeCap (cfg s1) = PipeCap (cfg s0)).
  { clear. induction es as [|e es IH]; intros s0 s1 Hr Hb; simpl in Hr.
    - by simplify_eq.
    - destruct (step s0 e) as [s2|] eqn:Es; [|done].
      destruct (step_pipe_bound s0 s2 e Es Hb) as [Hb2 Hc2].
      destruct (IH s2 s1 Hr Hb2) as [Hb1 Hc1]. split; [done|congruence]. }
  apply (H es (sys_init t d) s Hrun). by cbn.
Qed.

Lemma backlog_is_bounded_witness :
  len (Pipe after_three_writes) <= PipeCap (cfg after_three_writes)
  /\ PipeCap (cfg after_three_writes) = PipeCap default_cfg.
Proof.
  apply (backlog_is_bounded default_cfg ∅ three_writes).
  - vm_compute. discriminate.
  - vm_compute. reflexivity.
Defined.

(** X15.  A [Write] never disturbs what is already queued, whichever buffer
    the pool hands out: in every state the sink reaches, the bytes queued
    after the call are the bytes queued before it followed by the argument,
    and written bytes and accumulation buffer are as before. *)
Theorem Write_keeps_queued_bytes
    (t : EasyLog) (d : gmap string (list byte)) (es : list Event) (s s' : Sys)
    (p : list byte) (pick : option nat) (r : Z * option error) :
  run (sys_init t d) es = Some s ->
  Write p pick s = Some (r, s') ->
  queued s' = queued s ++ p
  /\ world s' = world s /\ pump s' = pump s
  /\ buffers_ok s'.
Proof.
  intros Hrun Hw.
  pose proof (run_buffers_ok es _ _ (proj1 (sys_init_ok t d)) Hrun) as Hok.
  assert (Hstep : step s (EWrite p pick) = Some s')
    by (unfold step; by rewrite Hw).
  destruct (step_stream s s' (EWrite p pick) Hok Hstep I) as (Hok' & Hn & Hst).
  assert (Hsame : world s' = world s /\ pump s' = pump s /\ cfg s' = cfg s).
  { unfold Write, Buffer_Write in Hw. destruct (pool_Get pick s) as [[b h] pl].
    destruct (len (Pipe s) <? PipeCap (cfg s)); [|done]. by simplify_eq. }
  destruct Hsame as (Hwo & Hpu & Hcf).
  split; [|done].
  unfold stream in Hst. rewrite Hwo, Hpu, Hcf in Hst. cbn [payloads concat] in Hst.
  rewrite app_nil_r, <- !app_assoc in Hst.
  by do 2 apply app_inv_head in Hst.
Qed.

Lemma Write_keeps_queued_bytes_witness :
  queued (default after_failed_flush
            (snd <$> Write cd (Some 0%nat) after_failed_flush))
  = queued after_failed_flush ++ cd.
Proof.
  destruct (Write_keeps_queued_bytes default_cfg ∅ failed_flush
              after_failed_flush
              (default after_failed_flush
                 (snd <$> Write cd (Some 0%nat) after_failed_flush))
              cd (Some 0%nat) (2, None)) as (H & _).
  - vm_compute. reflexivity.
  - vm_compute. reflexivity.
  - exact H.
Defined.

Lemma Copy_prefix (name : string) (short : option nat) (d : list byte) (w : World) :
  exists k, calls (snd (Copy name short d w))
            = calls w ++ [SysWrite name (take k d)].
Proof.
  unfold Copy. destruct short as [k|]; cbn [snd calls log_call set_dir].
  - by exists k.
  - exists (length d). by rewrite firstn_all.
Qed.

Lemma rename_appended (t : EasyLog) (io : IO) (w : World) (name : string) :
  appended name (calls (_rename t io w)) = appended name (calls w).
Proof.
  unfold _rename, Rename.
  destruct (dir w !! FileName t) as [c|] eqn:Ec.
  - destruct (rename_err1 io); cbn [calls log_call set_dir dir].
    + rewrite Ec. destruct (rename_err2 io); cbn [snd calls log_call set_dir];
        rewrite !appended_app; cbn; by rewrite !app_nil_r.
    + rewrite appended_app. cbn. by rewrite app_nil_r.
  - cbn [calls log_call set_dir dir]. rewrite Ec. cbn [snd calls log_call].
    rewrite !appended_app. cbn. by rewrite !app_nil_r.
Qed.

(** Whatever fails, one call of [_writeFile] writes to the active file a
    prefix of its payload, once, or nothing. *)
Lemma writeFile_appends_prefix (t : EasyLog) (io : IO) (d : list byte) (w : World) :
  exists k,
    appended (FileName t) (calls (world_of (_writeFile t io d w)))
    = appended (FileName t) (calls w) ++ take k d.
Proof.
  unfold _writeFile.
  destruct (open_try_err io) eqn:Ho.
  { rewrite tryWrite_open_fails by done. exists 0%nat.
    cbn [world_of log_call calls]. rewrite appended_app. cbn.
    by rewrite !app_nil_r. }
  destruct (stat_err io) eqn:Hs.
  { unfold _tryWrite. rewrite Ho, OpenFile_ok, Hs. exists 0%nat.
    cbn [negb world_of log_call set_dir calls]. rewrite appended_app. cbn.
    by rewrite !app_nil_r. }
  rewrite tryWrite_opened by done.
  assert (Hop : appended (FileName t) (calls (opened t w))
                = appended (FileName t) (calls w)).
  { unfold opened. cbn [calls]. rewrite appended_app. cbn.
    by rewrite app_nil_r. }
  destruct (add64 _ _ >? _).
  - unfold _mustWrite, OpenFile. destruct (open_must_err io); cbn [negb].
    + exists 0%nat. cbn [world_of].
      destruct (notify_world (log_call (SysOpen (FileName t) false)
                                (_rename t io (opened t w)))) as (_ & Hc & _).
      rewrite Hc. cbn [log_call calls]. rewrite !appended_app.
      rewrite rename_appended, Hop. cbn. by rewrite !app_nil_r.
    + match goal with
      | |- context [Copy ?n ?sh ?dd ?ww] =>
          destruct (Copy_prefix n sh dd ww) as (k & Hk);
          destruct (Copy n sh dd ww) as [rest w3]
      end.
      cbn [snd] in Hk. exists k. cbn [world_of].
      destruct (notify_world w3) as (_ & Hc & _). rewrite Hc, Hk.
      rewrite !appended_app.
      match goal with
      | |- context [set_dir ?dd (_rename t io (opened t w))] =>
          change (calls (log_call (SysOpen (FileName t) true)
                    (set_dir dd (_rename t io (opened t w)))))
            with (calls (_rename t io (opened t w))
                  ++ [SysOpen (FileName t) true])
      end.
      rewrite appended_app, rename_appended, Hop. cbn.
      rewrite String.eqb_refl. by rewrite !app_nil_r.
  - destruct (Copy_prefix (FileName t) (copy_try_short io) d (opened t w))
      as (k & Hk).
    destruct (Copy _ _ _ _) as [rest w3]. cbn [snd] in Hk. exists k.
    cbn [world_of]. rewrite Hk, appended_app, Hop. cbn.
    rewrite String.eqb_refl. by rewrite !app_nil_r.
Qed.

Lemma step_stream_sublist (s s' : Sys) (e : Event) :
  buffers_ok s -> step s e = Some s' ->
  FileName (cfg s') = FileName (cfg s)
  /\ stream s' `sublist_of` stream s ++ concat (payloads [e]).
Proof.
  intros Hok Hstep.
  destruct e as [p pick| | | |io| |m|m];
    try (destruct (step_stream s s' _ Hok Hstep I) as (_ & Hn & ->); done).
  cbn [payloads concat]. rewrite app_nil_r.
  unfold step in Hstep. destruct (tmC s); [|done].
  assert (Hf : forall r, FileName (cfg (flush s io r)) = FileName (cfg s)
                /\ stream (flush s io r) `sublist_of` stream s).
  { intros r.
    destruct (flush_data s io r) as (Hd & Hw & _ & HP & Hh & _ & Hc).
    destruct (writeFile_appends_prefix (cfg s) io (data (pump s)) (world s))
      as (k & Hk).
    unfold stream, queued. rewrite Hd, Hw, HP, Hh, Hc, Hk.
    split; [done|]. rewrite <- app_assoc.
    apply sublist_app; [done|]. cbn [app].
    apply sublist_app; [apply sublist_take|done]. }
  destruct (pc (pump s)); [destruct (len (data (pump s)) >? 0)|];
    simplify_eq; try apply Hf.
  by cbn.
Qed.

(** X16.  Failures lose bytes but never duplicate or reorder them.  Over any
    schedule at all, with any operation failing and any panic, the bytes
    written to the active file, followed by the accumulation buffer and the
    queued buffers, are a subsequence of the concatenation of the payloads
    in the order of their sends; so are the bytes written alone. *)
Theorem written_bytes_are_a_subsequence
    (t : EasyLog) (d : gmap string (list byte)) (es : list Event) (s : Sys) :
  run (sys_init t d) es = Some s ->
  stream s `sublist_of` concat (payloads es)
  /\ appended (FileName t) (calls (world s)) `sublist_of` concat (payloads es).
Proof.
  intros Hrun.
  assert (H : forall es s0 s1, buffers_ok s0 -> run s0 es = Some s1 ->
            FileName (cfg s1) = FileName (cfg s0)
            /\ stream s1 `sublist_of` stream s0 ++ concat (payloads es)).
  { clear. induction es as [|e es IH]; intros s0 s1 Hok Hr; simpl in Hr.
    - simplify_eq. cbn. by rewrite app_nil_r.
    - destruct (step s0 e) as [s2|] eqn:Es; [|done].
      destruct (step_stream_sublist s0 s2 e Hok Es) as [Hn2 Hs2].
      destruct (IH s2 s1 (step_buffers_ok _ _ _ Hok Es) Hr) as [Hn1 Hs1].
      split; [congruence|].
      etrans; [exact Hs1|].
      change (e :: es) with ([e] ++ es).
      rewrite payloads_app, concat_app, app_assoc.
      by apply sublist_app. }
  destruct (sys_init_ok t d) as [Hok0 Hs0].
  destruct (H es _ _ Hok0 Hrun) as [Hn Hs].
  rewrite Hs0, app_nil_l in Hs. cbn [sys_init cfg] in Hn.
  split; [done|].
  etrans; [|exact Hs]. unfold stream. rewrite Hn.
  by apply sublist_inserts_r.
Qed.

Lemma written_bytes_are_a_subsequence_witness :
  appended "log.txt" (calls (world after_failed_flush))
  `sublist_of` concat (payloads failed_flush).
Proof.
  destruct (written_bytes_are_a_subsequence default_cfg ∅ failed_flush
              after_failed_flush) as [_ H].
  - vm_compute. reflexivity.
  - exact H.
Defined.

Lemma CalcMaxCacheSize_bounds (t : EasyLog) :
  (0 <= MaxFileSize t -> 0 <= CalcMaxCacheSize t <= 1024 * 1024)
  /\ (1024 * 1024 <= MaxFileSize t -> CalcMaxCacheSize t = 1024 * 1024).
Proof.
  unfold CalcMaxCacheSize.
  destruct (Z.gtb_spec (MaxFileSize t) (1024 * 1024 * 1)); lia.
Qed.

(** The pump after a flush: one of three states, all with an empty buffer. *)
Lemma flush_pump (s : Sys) (io : IO) (r : bool) :
  pump (flush s io r) = after_select [] (CalcMaxCacheSize (cfg s))
  \/ pump (flush s io r)
     = {| data := []; maxCacheSize := maxCacheSize (pump s); pc := AtSelect |}
  \/ pump (flush s io r) = pump_start (cfg s).
Proof.
  unfold flush. destruct (_writeFile _ _ _ _); destruct r; cbn; auto.
Qed.

Lemma Write_heap (s s' : Sys) (p : list byte) (pick : option nat)
    (r : Z * option error) :
  buffers_ok s -> Write p pick s = Some (r, s') ->
  exists b,
    Pipe s' = Pipe s ++ [b] /\ heap s' !! b = Some p
    /\ (forall x, x ∈ Pipe s -> heap s' !! x = heap s !! x)
    /\ cfg s' = cfg s /\ pump s' = pump s /\ world s' = world s.
Proof.
  intros [Hnd Hrange] Hw. unfold Write, Buffer_Write in Hw.
  rewrite Forall_forall in Hrange.
  assert (Hnew : forall x, x ∈ Pipe s -> x <> length (heap s)).
  { intros x Hx ->.
    assert (length (heap s) < length (heap s))%nat; [|lia].
    apply Hrange, elem_of_app. by left. }
  assert (Hget : exists b h pl, pool_Get pick s = (b, h, pl)
            /\ (b < length h)%nat
            /\ forall x, x ∈ Pipe s -> x <> b /\ h !! x = heap s !! x).
  { assert (Hfresh : exists b h pl,
              (length (heap s), heap s ++ [[]], pool s) = (b, h, pl)
              /\ (b < length h)%nat
              /\ forall x, x ∈ Pipe s -> x <> b /\ h !! x = heap s !! x).
    { eexists _, _, _. split; [reflexivity|]. split.
      - rewrite length_app. simpl. lia.
      - intros x Hx. split; [by apply Hnew|].
        apply lookup_app_l, Hrange, elem_of_app. by left. }
    unfold pool_Get. destruct pick as [i|]; [|exact Hfresh].
    destruct (pool s !! i) as [b|] eqn:Ei; [|exact Hfresh].
    assert (Hin : b ∈ pool s) by (apply list_elem_of_lookup; eauto).
    eexists _, _, _. split; [reflexivity|]. split.
    - apply Hrange, elem_of_app. by right.
    - intros x Hx. split; [|done]. intros ->.
      apply NoDup_app in Hnd as (_ & Hdisj & _). by apply (Hdisj b). }
  destruct Hget as (b & h & pl & Hget & Hb & Hother). rewrite Hget in Hw.
  destruct (len (Pipe s) <? PipeCap (cfg s)); [|done]. simplify_eq.
  exists b. cbn [Pipe heap cfg pump world]. split; [done|]. split.
  { rewrite list_lookup_insert_eq by (by rewrite length_insert).
    by rewrite list_lookup_insert_eq by done. }
  split; [|done]. intros x Hx. destruct (Hother x Hx) as [Hne Hl].
  by rewrite !list_lookup_insert_ne by done.
Qed.

Lemma step_pump_inv (B : Z) (s s' : Sys) (e : Event) :
  0 <= B ->
  match e with EWrite p _ => len p <= B | _ => True end ->
  buffers_ok s -> pump_inv B s -> step s e = Some s' -> pump_inv B s'.
Proof.
  intros HB Hp Hok (Hmax & Hm & Hsel & Hwait & Hq) Hstep.
  unfold pump_inv.
  destruct e as [p pick| | | |io| |m|m]; unfold step in Hstep.
  - destruct (Write p pick s) as [[r s1]|] eqn:Ew; [|done].
    cbn in Hstep. simplify_eq.
    destruct (Write_heap s s' p pick r Hok Ew)
      as (b & HP & Hb & Hother & Hc & Hpu & _).
    rewrite Hc, Hpu, HP. repeat (split; [done|]).
    apply Forall_app. split.
    + rewrite Forall_forall in Hq |- *. intros x Hx.
      rewrite (Hother x Hx). by apply Hq.
    + constructor; [|constructor]. by rewrite Hb.
  - by simplify_eq.
  - by simplify_eq.
  - destruct (pc (pump s)) eqn:Epc; [|done].
    destruct (Pipe s) as [|v rest] eqn:EP; [done|]. simplify_eq.
    cbn [cfg pump Pipe heap after_select data maxCacheSize pc].
    apply Forall_cons in Hq as [Hv Hq].
    specialize (Hsel eq_refl). rewrite len_app.
    pose proof (len_nonneg (default [] (heap s !! v))).
    split; [done|]. split; [done|].
    destruct (Z.gtb_spec (len (data (pump s)) + len (default [] (heap s !! v)))
                (maxCacheSize (pump s))).
    + split; [done|]. split; [intros _; lia|].
      eapply Forall_impl; [exact Hq|]. intros x Hx. cbn beta in *.
      destruct (decide (x = v)) as [->|Hne].
      * destruct (heap s !! v) eqn:Eh.
        { rewrite list_lookup_insert_eq
            by (by apply lookup_lt_Some in Eh). done. }
        rewrite list_insert_ge by (by apply lookup_ge_None in Eh).
        by rewrite Eh.
      * by rewrite list_lookup_insert_ne.
    + split; [intros _; lia|]. split; [done|].
      eapply Forall_impl; [exact Hq|]. intros x Hx. cbn beta in *.
      destruct (decide (x = v)) as [->|Hne].
      * destruct (heap s !! v) eqn:Eh.
        { rewrite list_lookup_insert_eq
            by (by apply lookup_lt_Some in Eh). done. }
        rewrite list_insert_ge by (by apply lookup_ge_None in Eh).
        by rewrite Eh.
      * by rewrite list_lookup_insert_ne.
  - destruct (tmC s); [|done].
    destruct (CalcMaxCacheSize_bounds (cfg s)) as [Hcalc _].
    specialize (Hcalc Hmax).
    assert (Hf : forall r,
      0 <= MaxFileSize (cfg (flush s io r))
      /\ 0 <= maxCacheSize (pump (flush s io r)) <= 1024 * 1024
      /\ (pc (pump (flush s io r)) = AtSelect ->
          len (data (pump (flush s io r))) <= maxCacheSize (pump (flush s io r)))
      /\ (pc (pump (flush s io r)) = AtWaitTick ->
          maxCacheSize (pump (flush s io r)) < len (data (pump (flush s io r)))
            <= maxCacheSize (pump (flush s io r)) + B)
      /\ Forall (fun b => len (default [] (heap (flush s io r) !! b)) <= B)
           (Pipe (flush s io r))).
    { intros r.
      destruct (flush_data s io r) as (_ & _ & _ & HP & Hh & _ & Hc).
      rewrite HP, Hh, Hc. split; [done|].
      destruct (flush_pump s io r) as [->|[->| ->]];
        cbn [after_select pump_start data maxCacheSize pc];
        change (len (@nil byte)) with 0.
      - destruct (Z.gtb_spec 0 (CalcMaxCacheSize (cfg s))) as [Hgt|Hle]; [lia|].
        repeat split; try done; try lia.
      - repeat split; try done; try lia.
      - repeat split; try done; try lia. }
    destruct (pc (pump s)) eqn:Epc.
    + destruct (Z.gtb_spec (len (data (pump s))) 0) as [Hpos|Hzero].
      * simplify_eq. apply Hf.
      * simplify_eq.
        cbn [cfg pump Pipe heap with_pump after_select data maxCacheSize pc].
        pose proof (len_nonneg (data (pump s))).
        destruct (Z.gtb_spec (len (data (pump s))) (CalcMaxCacheSize (cfg s)));
          [lia|].
        repeat split; try done; try lia.
    + simplify_eq. apply Hf.
  - destruct (chan_recv _) as [[v c]|]; [|done].
    destruct (cleanFile _ _); [|done]. by simplify_eq.
  - simplify_eq. cbn [cfg pump Pipe heap SetMaxFileSize MaxFileSize].
    split; [destruct (Z.ltb_spec m (1024 * 1024)); lia|done].
  - by simplify_eq.
Qed.

Lemma run_pump_inv (B : Z) (es : list Event) : forall s s',
  0 <= B -> Forall (fun p => len p <= B) (payloads es) ->
  buffers_ok s -> pump_inv B s -> run s es = Some s' -> pump_inv B s'.
Proof.
  induction es as [|e es IH]; intros s s' HB Hp Hok Hinv Hrun; simpl in Hrun.
  - by simplify_eq.
  - destruct (step s e) as [s1|] eqn:Es; [|done].
    apply (IH s1 s' HB); [| | |done].
    + destruct e; simpl in Hp; try done. by apply Forall_cons in Hp as [_ Hp].
    + by eapply step_buffers_ok.
    + eapply step_pump_inv; [done| |done|done|done].
      destruct e; simpl in Hp; try done. by apply Forall_cons in Hp as [Hp _].
Qed.

Lemma sys_init_pump_inv (B : Z) (t : EasyLog) (d : gmap string (list byte)) :
  0 <= MaxFileSize t -> pump_inv B (sys_init t d).
Proof.
  intros Hmax. destruct (CalcMaxCacheSize_bounds t) as [Hc _].
  specialize (Hc Hmax). unfold pump_inv.
  cbn [sys_init cfg pump pump_start data maxCacheSize pc Pipe].
  change (len (@nil byte)) with 0. repeat split; try done; try lia.
Qed.

Lemma payloads_within_total (ps : list (list byte)) :
  Forall (fun p => len p <= len (concat ps)) ps.
Proof.
  induction ps as [|p ps IH]; [constructor|]. cbn [concat].
  rewrite len_app. pose proof (len_nonneg p). pose proof (len_nonneg (concat ps)).
  constructor; [lia|]. eapply Forall_impl; [exact IH|]. intros x Hx. cbn beta in *. lia.
Qed.

(** X17.  The accumulation buffer is bounded.  From a sink whose cap is not
    negative, over any schedule whose payloads are at most [B] bytes long:
    the cache size is between 0 and 1 MiB; while the pump is in its select
    the buffer holds at most the cache size; while it waits for the ticker
    the buffer holds more than the cache size; and at every moment it holds
    at most 1 MiB plus one payload. *)
Theorem accumulation_buffer_is_bounded
    (t : EasyLog) (d : gmap string (list byte)) (es : list Event) (s : Sys)
    (B : Z) :
  0 <= MaxFileSize t -> 0 <= B ->
  Forall (fun p => len p <= B) (payloads es) ->
  run (sys_init t d) es = Some s ->
  0 <= maxCacheSize (pump s) <= 1024 * 1024
  /\ (pc (pump s) = AtSelect -> len (data (pump s)) <= maxCacheSize (pump s))
  /\ (pc (pump s) = AtWaitTick -> maxCacheSize (pump s) < len (data (pump s)))
  /\ len (data (pump s)) <= 1024 * 1024 + B.
Proof.
  intros Hmax HB Hp Hrun.
  destruct (run_pump_inv B es _ _ HB Hp (proj1 (sys_init_ok t d))
              (sys_init_pump_inv B t d Hmax) Hrun)
    as (_ & Hm & Hsel & Hwait & _).
  split; [done|]. split; [done|]. split; [intros H; apply Hwait in H; lia|].
  destruct (pc (pump s)) eqn:Epc.
  - specialize (Hsel eq_refl). lia.
  - specialize (Hwait eq_refl). lia.
Qed.

Lemma accumulation_buffer_is_bounded_witness :
  len (data (pump sys_ab_ticked)) <= 1024 * 1024 + 2.
Proof.
  apply (accumulation_buffer_is_bounded default_cfg ∅
           [EWrite ab None; ERecv; ETimer] sys_ab_ticked 2).
  - vm_compute. discriminate.
  - lia.
  - repeat constructor. vm_compute. discriminate.
  - vm_compute. reflexivity.
Defined.

(** X18.  The pump never flushes an empty buffer.  From a sink whose cap is
    not negative, in every state it reaches: a tick taken with an empty
    accumulation buffer makes no system call and leaves the directory and
    the trigger as they are. *)
Theorem idle_tick_makes_no_system_call
    (t : EasyLog) (d : gmap string (list byte)) (es : list Event) (s s' : Sys)
    (io : IO) :
  0 <= MaxFileSize t ->
  run (sys_init t d) es = Some s ->
  data (pump s) = [] ->
  step s (ETick io) = Some s' ->
  world s' = world s /\ pc (pump s) = AtSelect /\ data (pump s') = [].
Proof.
  intros Hmax Hrun Hd Hstep.
  destruct (run_pump_inv (len (concat (payloads es))) es _ _
              (len_nonneg _) (payloads_within_total _)
              (proj1 (sys_init_ok t d))
              (sys_init_pump_inv _ t d Hmax) Hrun)
    as (_ & Hm & _ & Hwait & _).
  unfold step in Hstep. destruct (tmC s); [|done].
  destruct (pc (pump s)) eqn:Epc.
  - rewrite Hd in Hstep. change (len (@nil byte) >? 0) with false in Hstep.
    cbn iota in Hstep. injection Hstep as <-. by cbn.
  - specialize (Hwait eq_refl). rewrite Hd in Hwait.
    change (len (@nil byte)) with 0 in Hwait. lia.
Qed.

Lemma idle_tick_makes_no_system_call_witness :
  world (default (sys_init default_cfg ∅)
           (step (with_pump (sys_init default_cfg ∅) empty_world true
                    (pump_start default_cfg)) (ETick (no_faults noon))))
  = world (with_pump (sys_init default_cfg ∅) empty_world true
             (pump_start default_cfg)).
Proof.
  destruct (idle_tick_makes_no_system_call default_cfg ∅ [ETimer]
              (with_pump (sys_init default_cfg ∅) empty_world true
                 (pump_start default_cfg))
              (default (sys_init default_cfg ∅)
                 (step (with_pump (sys_init default_cfg ∅) empty_world true
                          (pump_start default_cfg)) (ETick (no_faults noon))))
              (no_faults noon)) as (H & _).
  - vm_compute. discriminate.
  - reflexivity.
  - reflexivity.
  - reflexivity.
  - exact H.
Defined.

Lemma step_cap_inv (s s' : Sys) (e : Event) :
  cap_inv s -> step s e = Some s' -> cap_inv s'.
Proof.
  intros [Hmax Hm] Hstep. unfold cap_inv.
  destruct (CalcMaxCacheSize_bounds (cfg s)) as [_ Hcalc].
  specialize (Hcalc Hmax).
  destruct e as [p pick| | | |io| |m|m]; unfold step in Hstep.
  - unfold Write, Buffer_Write in Hstep.
    destruct (pool_Get pick s) as [[b h] pl].
    destruct (len (Pipe s) <? PipeCap (cfg s)); [|done].
    cbn in Hstep. by simplify_eq.
  - by simplify_eq.
  - by simplify_eq.
  - destruct (pc (pump s)); [|done]. destruct (Pipe s); [done|].
    by simplify_eq.
  - destruct (tmC s); [|done].
    assert (Hf : forall r, 1024 * 1024 <= MaxFileSize (cfg (flush s io r))
                  /\ maxCacheSize (pump (flush s io r)) = 1024 * 1024).
    { intros r. destruct (flush_data s io r) as (_ & _ & _ & _ & _ & _ & Hc).
      rewrite Hc. split; [done|].
      by destruct (flush_pump s io r) as [->|[->| ->]]. }
    destruct (pc (pump s)); [destruct (len (data (pump s)) >? 0)|];
      simplify_eq; try apply Hf. by cbn.
  - destruct (chan_recv _) as [[v c]|]; [|done].
    destruct (cleanFile _ _); [|done]. by simplify_eq.
  - simplify_eq. cbn [cfg pump SetMaxFileSize MaxFileSize].
    split; [destruct (Z.ltb_spec m (1024 * 1024)); lia|done].
  - by simplify_eq.
Qed.

Lemma run_cap_inv (es : list Event) : forall s s',
  cap_inv s -> run s es = Some s' -> cap_inv s'.
Proof.
  induction es as [|e es IH]; intros s s' Hinv Hrun; simpl in Hrun.
  - by simplify_eq.
  - destruct (step s e) as [s1|] eqn:Es; [|done].
    eapply IH; [|done]. by eapply step_cap_inv.
Qed.

(** X19.  With the cap at 1 MiB, the smallest a setter allows, every flush
    that the size of the buffer triggers rotates.  From a sink whose cap is
    at least 1 MiB, in every state it reaches in which the pump waits for the
    ticker and the cap now is 1 MiB: when the tick comes and nothing fails,
    the active file is renamed and the whole buffer is written to a new
    active file, which is then larger than the cap. *)
Theorem size_triggered_flush_rotates_at_minimum_cap
    (t : EasyLog) (d : gmap string (list byte)) (es : list Event) (s : Sys)
    (io : IO) :
  1024 * 1024 <= MaxFileSize t ->
  run (sys_init t d) es = Some s ->
  pc (pump s) = AtWaitTick -> tmC s = true ->
  MaxFileSize (cfg s) = 1024 * 1024 ->
  io_ok io ->
  file_size (FileName (cfg s)) (world s) + len (data (pump s)) <= max_int64 ->
  let name := FileName (cfg s) in
  exists s',
    step s (ETick io) = Some s'
    /\ dir (world s') !! name = Some (data (pump s))
    /\ dir (world s') !! rotated_name (cfg s) (now io)
       = Some (default [] (dir (world s) !! name))
    /\ file_size name (world s') > MaxFileSize (cfg s)
    /\ data (pump s') = [] /\ pc (pump s') = AtSelect.
Proof.
  intros Hmax Hrun Hpc Htick Hcap Hio Hrange. cbn zeta.
  assert (Hcinv : cap_inv s).
  { apply (run_cap_inv es (sys_init t d)); [|done]. split; [done|].
    by apply CalcMaxCacheSize_bounds. }
  destruct Hcinv as [_ Hm].
  destruct (run_pump_inv (len (concat (payloads es))) es _ _
              (len_nonneg _) (payloads_within_total _)
              (proj1 (sys_init_ok t d))
              (sys_init_pump_inv _ t d ltac:(lia)) Hrun)
    as (_ & _ & _ & Hwait & _).
  specialize (Hwait Hpc).
  pose proof (file_size_nonneg (FileName (cfg s)) (world s)) as Hc0.
  destruct (writeFile_rotated_world (cfg s) io (data (pump s)) (world s) Hio
              Hrange ltac:(lia)) as (w' & Hw & Hd & _).
  unfold step. rewrite Htick, Hpc. eexists. split; [reflexivity|].
  unfold flush. rewrite Hw. cbn [world pump with_pump data pc].
  rewrite Hd. split; [by rewrite lookup_insert_eq|]. split.
  { rewrite lookup_insert_ne by (intros H; symmetry in H;
      by apply rotated_name_fresh in H).
    by rewrite lookup_insert_eq. }
  split; [|done]. unfold file_size. rewrite Hd, lookup_insert_eq. lia.
Qed.

Lemma size_triggered_flush_rotates_at_minimum_cap_witness :
  exists s',
    step sys_over_ticked (ETick (no_faults noon)) = Some s'
    /\ file_size "log.txt" (world s') > MaxFileSize mib_cfg.
Proof.
  destruct (size_triggered_flush_rotates_at_minimum_cap mib_cfg ∅
              [EWrite over_mib None; ERecv; ETimer] sys_over_ticked
              (no_faults noon))
    as (s' & H1 & _ & _ & H2 & _).
  - vm_compute. discriminate.
  - reflexivity.
  - vm_compute. reflexivity.
  - vm_compute. reflexivity.
  - vm_compute. reflexivity.
  - repeat split.
  - vm_compute. discriminate.
  - exists s'. split; [exact H1 | exact H2].
Defined.

(** ** The sweeper inside the sink *)





(** ** The guard of [_tryWrite], whatever fails *)

(** X21.  An append in place never takes the active file past the cap and
    never rewrites it.  Whatever fails in [_tryWrite]: the content of the
    active file afterwards starts with its content before; a file within the
    cap stays within the cap; and the trigger is not touched. *)
Theorem tryWrite_never_passes_the_cap
    (t : EasyLog) (io : IO) (d : list byte) (w : World) :
  file_size (FileName t) w + len d <= max_int64 ->
  let name := FileName t in
  let w' := world_of (_tryWrite t io d w) in
  default [] (dir w !! name) `prefix_of` default [] (dir w' !! name)
  /\ (file_size name w <= MaxFileSize t -> file_size name w' <= MaxFileSize t)
  /\ file_size name w' <= file_size name w + len d
  /\ ch w' = ch w.
Proof.
  intros Hrange. cbn zeta.
  pose proof (file_size_nonneg (FileName t) w) as Hc0.
  pose proof (len_nonneg d) as Hd0.
  destruct (open_try_err io) eqn:Ho.
  { rewrite tryWrite_open_fails by done. cbn [world_of].
    change (file_size (FileName t) (log_call (SysOpen (FileName t) false) w))
      with (file_size (FileName t) w).
    unfold log_call. cbn [dir ch]. repeat split; try done. lia. }
  destruct (stat_err io) eqn:Hs.
  { unfold _tryWrite. rewrite Ho, OpenFile_ok, Hs. cbn [negb world_of].
    rewrite !file_size_default. unfold log_call, set_dir. cbn [dir ch].
    rewrite lookup_insert_eq. cbn [default]. unfold id.
    repeat split; try done. lia. }
  rewrite tryWrite_opened by done. rewrite add64_small by lia.
  destruct (opened_lookup t w) as [Hl _].
  destruct (Z.gtb_spec (file_size (FileName t) w + len d) (MaxFileSize t))
    as [Hgt|Hle].
  - cbn [world_of]. rewrite !file_size_default, Hl. cbn [default]. unfold id.
    unfold opened. cbn [ch]. repeat split; try done. lia.
  - destruct (Copy_world (FileName t) (copy_try_short io) d (opened t w))
      as (written & Hlen & Hcopy).
    destruct (Copy _ _ _ _) as [rest w3]. cbn [snd] in Hcopy. subst w3.
    cbn [world_of]. rewrite !file_size_default. cbn [dir ch].
    rewrite lookup_insert_eq, Hl. cbn [default]. unfold id. rewrite len_app.
    rewrite <- !file_size_default.
    split; [by apply prefix_app_r|].
    unfold opened. cbn [ch]. repeat split; try done; lia.
Qed.

Lemma tryWrite_never_passes_the_cap_witness :
  file_size "log.txt" (world_of (_tryWrite mib_cfg short_write over_mib world_ab))
  <= MaxFileSize mib_cfg.
Proof.
  destruct (tryWrite_never_passes_the_cap mib_cfg short_write over_mib world_ab)
    as (_ & H & _).
  - vm_compute. discriminate.
  - apply H. vm_compute. discriminate.
Defined.

(** ** The order of rotated names *)

Lemma compare_same_prefix (p x y : string) :
  String.compare (p ++ x) (p ++ y) = String.compare x y.
Proof.
  induction p as [|c p IH]; simpl; [done|].
  unfold Ascii.compare. by rewrite N.compare_refl.
Qed.

Lemma compare_append (a : string) : forall a' b b',
  String.length a = String.length a' ->
  String.compare (a ++ b) (a' ++ b')
  = match String.compare a a' with
    | Eq => String.compare b b'
    | c => c
    end.
Proof.
  induction a as [|c a IH]; intros [|c' a'] b b' Hl; simpl in *; try done.
  destruct (Ascii.compare c c'); try done. apply IH. lia.
Qed.

Lemma compare_digit_char (x y : nat) :
  Ascii.compare (digit_char x) (digit_char y)
  = Nat.compare (x mod 10) (y mod 10).
Proof.
  unfold Ascii.compare, digit_char.
  pose proof (Nat.mod_upper_bound x 10 ltac:(lia)).
  pose proof (Nat.mod_upper_bound y 10 ltac:(lia)).
  assert (H48 : forall n, (n < 10)%nat ->
            N_of_ascii (ascii_of_nat (48 + n)) = N.of_nat (48 + n)).
  { intros n Hn. unfold ascii_of_nat. rewrite N_ascii_embedding; [done|].
    lia. }
  rewrite !H48 by done. rewrite <- Nat2N.inj_compare.
  destruct (Nat.compare_spec (x mod 10) (y mod 10)) as [E|L|G].
  - rewrite E. apply Nat.compare_refl.
  - apply Nat.compare_lt_iff. lia.
  - apply Nat.compare_gt_iff. lia.
Qed.

Ltac by_digits :=
  symmetry;
  first [ apply Z.compare_eq_iff | apply Z.compare_lt_iff
        | apply Z.compare_gt_iff ];
  zify; Z.to_euclidean_division_equations; lia.

Lemma compare_fmt2 (x y : nat) :
  Z.of_nat x < 100 -> Z.of_nat y < 100 ->
  String.compare (fmt2 x) (fmt2 y) = Z.compare (Z.of_nat x) (Z.of_nat y).
Proof.
  intros Hx Hy. unfold fmt2. cbn [String.compare].
  rewrite !compare_digit_char.
  destruct (Nat.compare_spec ((x / 10) mod 10) ((y / 10) mod 10)) as [E1|L1|G1];
    [destruct (Nat.compare_spec (x mod 10) (y mod 10)) as [E2|L2|G2]| |];
    by_digits.
Qed.

Lemma compare_fmt4 (x y : nat) :
  Z.of_nat x < 10000 -> Z.of_nat y < 10000 ->
  String.compare (fmt4 x) (fmt4 y) = Z.compare (Z.of_nat x) (Z.of_nat y).
Proof.
  intros Hx Hy. unfold fmt4. cbn [String.compare].
  rewrite !compare_digit_char.
  destruct (Nat.compare_spec ((x / 1000) mod 10) ((y / 1000) mod 10))
    as [E1|L1|G1];
    [destruct (Nat.compare_spec ((x / 100) mod 10) ((y / 100) mod 10))
       as [E2|L2|G2];
     [destruct (Nat.compare_spec ((x / 10) mod 10) ((y / 10) mod 10))
        as [E3|L3|G3];
      [destruct (Nat.compare_spec (x mod 10) (y mod 10)) as [E4|L4|G4]| |]
     | |]
    | |];
    by_digits.
Qed.

(** [Format] compares as the clock readings do. *)
Lemma compare_Format (a b : Time) :
  valid_time a -> valid_time b ->
  String.compare (Format a) (Format b) = Z.compare (time_value a) (time_value b).
Proof.
  intros (Ha1 & Ha2 & Ha3 & Ha4 & Ha5 & Ha6) (Hb1 & Hb2 & Hb3 & Hb4 & Hb5 & Hb6).
  unfold Format.
  rewrite !compare_append by reflexivity.
  rewrite compare_fmt4, !compare_fmt2 by done.
  unfold time_value.
  destruct (Z.compare_spec (Z.of_nat (year a)) (Z.of_nat (year b)));
    [destruct (Z.compare_spec (Z.of_nat (month a)) (Z.of_nat (month b)));
     [destruct (Z.compare_spec (Z.of_nat (day a)) (Z.of_nat (day b)));
      [destruct (Z.compare_spec (Z.of_nat (hour a)) (Z.of_nat (hour b)));
       [destruct (Z.compare_spec (Z.of_nat (minute a)) (Z.of_nat (minute b)));
        [destruct (Z.compare_spec (Z.of_nat (second a)) (Z.of_nat (second b)))
        | |]
       | |]
      | |]
     | |]
    | |];
    symmetry;
    first [ apply Z.compare_eq_iff; lia
          | apply Z.compare_lt_iff; lia
          | apply Z.compare_gt_iff; lia ].
Qed.

(** X22.  Rotated names sort as the clock readings that made them: for two
    readings with fields of the width [Format] gives them, the name of the
    earlier rotation is below the name of the later one in the order
    [sort.Slice] uses, and equal names come from equal readings.  So the
    names the sweep removes first are those of the earliest rotations. *)
Theorem rotated_names_sort_by_time (t : EasyLog) (a b : Time) :
  valid_time a -> valid_time b ->
  (time_value a < time_value b ->
     String.ltb (rotated_name t a) (rotated_name t b) = true
     /\ str_le (rotated_name t a) (rotated_name t b)
     /\ ~ str_le (rotated_name t b) (rotated_name t a))
  /\ (rotated_name t a = rotated_name t b -> time_value a = time_value b).
Proof.
  intros Ha Hb.
  assert (Hc : forall x y, valid_time x -> valid_time y ->
            String.compare (rotated_name t x) (rotated_name t y)
            = Z.compare (time_value x) (time_value y)).
  { intros x y Hx Hy. unfold rotated_name.
    by rewrite !compare_same_prefix, compare_Format. }
  split.
  - intros Hlt. unfold str_le, String.ltb, String.leb.
    rewrite (Hc a b Ha Hb), (Hc b a Hb Ha).
    apply Z.compare_lt_iff in Hlt as Hlt'. rewrite Hlt'.
    assert (Hgt : Z.compare (time_value b) (time_value a) = Gt)
      by (apply Z.compare_gt_iff; lia).
    rewrite Hgt. repeat split; done.
  - intros Heq. pose proof (Hc a b Ha Hb) as H. rewrite Heq in H.
    assert (Hr : String.compare (rotated_name t b) (rotated_name t b) = Eq).
    { clear. induction (rotated_name t b) as [|c s IH]; simpl; [done|].
      unfold Ascii.compare. by rewrite N.compare_refl. }
    rewrite Hr in H. symmetry in H. by apply Z.compare_eq_iff in H.
Qed.

Lemma rotated_names_sort_by_time_witness :
  String.ltb (rotated_name default_cfg noon)
    (rotated_name default_cfg one_second_later) = true.
Proof.
  destruct (rotated_names_sort_by_time default_cfg noon one_second_later)
    as [H _].
  - repeat split; vm_compute; reflexivity.
  - repeat split; vm_compute; reflexivity.
  - destruct H as [H _]; [vm_compute; reflexivity | exact H].
Defined.
